(** * global-covid-19: the data pipeline of [app.py]

    [app.py] is a Streamlit script.  Its computation is a short chain of
    pandas calls on one data frame with the columns [date], [location],
    [total_cases], [total_deaths]:

    - [load_data] / [create_local_data]  (lines 21-38)
    - [df_filtered]                      (line 53)
    - [latest]                           (line 59)
    - [top_countries]                    (line 71)
    - [to_csv_bytes]                     (lines 110-112)

    Conventions of the embedding.

    - A data frame is the list of its rows, in index order.  Columns hold no
      missing values (the generator produces none): a [date] is a day
      number counted from 1970-01-01 (all timestamps of the generator are
      midnights), the two counters are integers, a [location] is a Python
      [str] given by its UTF-8 bytes.  Byte-wise lexicographic order on
      UTF-8 coincides with Python's code point order on [str].
    - [DataFrame.sort_values] is called by the script with its default
      [kind="quicksort"], which pandas documents as not stable.  The
      relation [sort_values] is what that documentation promises: a
      permutation of the rows that is ordered on the key.  It admits more
      outcomes than a run produces, so it carries the statements that
      hold of every outcome.  [stable_sort_values] is the outcome of the
      stable kinds ([kind="stable"], [kind="mergesort"]).
      [sort_values_quicksort] is the outcome of a run for the date sort of
      line 59: numpy's quicksort on the [datetime64] column. *)

From Stdlib Require Import ZArith List Permutation Sorted String Ascii Bool Lia.
From Stdlib Require DecimalString DecimalZ.
From stdpp Require Import base option list gmap strings sorting.

Local Open Scope Z_scope.

(** ** Data model *)

Record Row : Type := mkRow {
  date : Z;
  location : string;
  total_cases : Z;
  total_deaths : Z
}.

Definition Table : Type := list Row.

#[global] Instance Row_eq_dec : EqDecision Row.
Proof. solve_decision. Defined.

(** Column projections, [df["date"]] and the like. *)
Definition col_date (df : Table) : list Z := map date df.
Definition col_location (df : Table) : list string := map location df.

(** ** Filter stage (line 53)

    [df[(df["date"] >= start_date) & (df["date"] <= end_date)]] *)

(** [series >= x] and [series <= x]: element-wise comparisons. *)
Definition series_ge (s : list Z) (x : Z) : list bool := map (fun d => x <=? d) s.
Definition series_le (s : list Z) (x : Z) : list bool := map (fun d => d <=? x) s.

(** [m1 & m2] on boolean series of one index. *)
Definition series_and (m1 m2 : list bool) : list bool :=
  map (fun p => fst p && snd p) (combine m1 m2).

(** [df[mask]]: the rows whose mask entry is [True], in index order. *)
Fixpoint getitem_mask (df : Table) (mask : list bool) : Table :=
  match df, mask with
  | r :: df', b :: mask' =>
      if b then r :: getitem_mask df' mask' else getitem_mask df' mask'
  | _, _ => []
  end.

Definition df_filtered (df : Table) (start_date end_date : Z) : Table :=
  getitem_mask df
    (series_and (series_ge (col_date df) start_date)
                (series_le (col_date df) end_date)).

(** The window test of one row. *)
Definition in_window (start_date end_date : Z) (r : Row) : bool :=
  (start_date <=? date r) && (date r <=? end_date).

(** Line 53 as a statement of the script: it reads the variable [df] and
    binds [df_filtered] in the module namespace. *)
Definition exec_filter (ns : gmap string Table) (start_date end_date : Z)
  : option (gmap string Table) :=
  match ns !! "df"%string with
  | Some df => Some (<["df_filtered"%string := df_filtered df start_date end_date]> ns)
  | None => None
  end.

(** [len(df_filtered)] (line 62). *)
Definition len (df : Table) : nat := length df.

(** ** Sorting (lines 59 and 71) *)

(** The order [sort_values] establishes between a row and the rows after
    it. *)
Definition key_le (key : Row -> Z) (ascending : bool) (r1 r2 : Row) : Prop :=
  if ascending then key r1 <= key r2 else key r2 <= key r1.

Definition key_leb (key : Row -> Z) (ascending : bool) (r1 r2 : Row) : bool :=
  if ascending then key r1 <=? key r2 else key r2 <=? key r1.

(** [df.sort_values(key, ascending=...)] with the default sort kind. *)
Definition sort_values (key : Row -> Z) (ascending : bool) (df sorted : Table) : Prop :=
  df ≡ₚ sorted /\ StronglySorted (key_le key ascending) sorted.

(** The stable kinds: a row goes in front of the first row it does not
    have to follow. *)
Fixpoint insert_row (key : Row -> Z) (ascending : bool) (r : Row) (S : Table) : Table :=
  match S with
  | [] => [r]
  | s :: S' =>
      if key_leb key ascending r s then r :: S
      else s :: insert_row key ascending r S'
  end.

Definition stable_sort_values (key : Row -> Z) (ascending : bool) (df : Table) : Table :=
  foldr (insert_row key ascending) [] df.


(** ** Aggregation stage (line 59)

    [df_filtered.sort_values("date").groupby("location", as_index=False).last()] *)

(** [Series.unique()]: the distinct values in order of first appearance. *)
Fixpoint unique (ks : list string) : list string :=
  match ks with
  | [] => []
  | k :: ks' => k :: List.filter (fun k' => negb (k' =? k)%string) (unique ks')
  end.

(** [Series.nunique()] (line 63). *)
Definition nunique (ks : list string) : nat := length (unique ks).

(** [groupby] sorts the group keys ([sort=True]); Python orders [str] by
    code points. *)
Fixpoint insert_key (k : string) (ks : list string) : list string :=
  match ks with
  | [] => [k]
  | k' :: ks' => if String.leb k k' then k :: ks else k' :: insert_key k ks'
  end.

Definition sort_keys (ks : list string) : list string := foldr insert_key [] ks.

(** Strictly smaller in that order. *)
Definition string_lt (s1 s2 : string) : Prop := String.compare s1 s2 = Lt.

(** [GroupBy.last()] walks the rows in order and overwrites the entry of
    the row's group; what remains for a key is the last row of its group. *)
Definition group_last (S : Table) : gmap string Row :=
  foldl (fun m r => <[location r := r]> m) ∅ S.

(** The last row of a location. *)
Definition last_of (l : string) (S : Table) : option Row :=
  last (List.filter (fun r => (location r =? l)%string) S).

(** One row per group, in the order of the sorted keys.  With
    [as_index=False] the key is an ordinary column of the result. *)
Definition groupby_last (S : Table) : Table :=
  omap (fun k => group_last S !! k) (sort_keys (unique (col_location S))).

(** Line 59: [L] is an outcome of the aggregation of [dff]. *)
Definition latest (dff L : Table) : Prop :=
  exists S, sort_values date true dff S /\ L = groupby_last S.

(** [latest] when the sort is one of the stable kinds. *)
Definition latest_stable (dff : Table) : Table :=
  groupby_last (stable_sort_values date true dff).

(** *** The date sort as the library runs it

    [sort_values("date")] takes the column of dates, asks numpy for
    [argsort(kind="quicksort")] and takes the rows in the order of the
    positions it returns.  For a [datetime64] column numpy runs its
    [aquicksort_] (npysort/quicksort.cpp): an introsort on the array of
    positions, which partitions around the median of three while a segment
    spans more than [SMALL_QUICKSORT] steps, sorts short segments by
    insertion, and falls back to heapsort when the depth limit is used
    up.  The array elements are of a type [A] and are compared through
    [key]; for [argsort] they are positions and [key] reads the column,
    which holds no [NaT].  Pointers into the array are positions counted
    from 0.  The loops of the C code run on fuel here; [aquicksort_sorts]
    shows that the fuel handed out is never used up. *)

Section Quicksort.
Context {A : Type} (key : A -> Z).




















End Quicksort.





(** *** What the sort maintains

    The notions in which the correctness of [aquicksort] is stated: the
    segments that are still to be sorted, the steps the loops have left,
    and the heap order of the fallback. *)

Section SortInvariants.
Context {A : Type} (key : A -> Z).











End SortInvariants.

(** The largest date among the rows of one location, [None] when the
    location does not occur. *)
Definition max_date_of (l : string) (df : Table) : option Z :=
  foldr (fun r acc =>
           if (location r =? l)%string
           then Some (match acc with Some d => Z.max (date r) d | None => date r end)
           else acc) None df.

(** ** Ranking stage (line 71)

    [latest.sort_values("total_cases", ascending=False).head(top_n)] *)

(** [DataFrame.head(n)]: the first [n] rows; for a negative [n] all rows
    but the last [-n]. *)
Definition df_head (n : Z) (df : Table) : Table :=
  if n <? 0 then take (length df - Z.to_nat (- n)) df
  else take (Z.to_nat n) df.

(** Line 71: [R] is an outcome of the ranking of [L] cut to [n] rows. *)
Definition top_countries (L : Table) (n : Z) (R : Table) : Prop :=
  exists S, sort_values total_cases false L S /\ R = df_head n S.

(** [top_countries] when the sort is one of the stable kinds. *)
Definition top_countries_stable (L : Table) (n : Z) : Table :=
  df_head n (stable_sort_values total_cases false L).


(** [latest] followed by [top_countries], as the script chains them. *)
Definition ranking (dff : Table) (n : Z) (R : Table) : Prop :=
  exists L, latest dff L /\ top_countries L n R.

(** ** Calendar dates

    A [date] value is the day number of a midnight timestamp, counted from
    1970-01-01 as [datetime64] does.  pandas prints such a column as
    [YYYY-MM-DD] in the proleptic Gregorian calendar. *)

(** Year, month and day of a day number. *)
Definition civil_from_days (z : Z) : Z * Z * Z :=
  let z := z + 719468 in
  let era := z / 146097 in
  let doe := z - era * 146097 in
  let yoe := (doe - doe / 1460 + doe / 36524 - doe / 146096) / 365 in
  let doy := doe - (365 * yoe + yoe / 4 - yoe / 100) in
  let mp := (5 * doy + 2) / 153 in
  let d := doy - (153 * mp + 2) / 5 + 1 in
  let m := if mp <? 10 then mp + 3 else mp - 9 in
  let y := yoe + era * 400 in
  (if m <=? 2 then y + 1 else y, m, d).

(** The day number of a year, month and day. *)
Definition days_from_civil (y m d : Z) : Z :=
  let y := if m <=? 2 then y - 1 else y in
  let era := y / 400 in
  let yoe := y - era * 400 in
  let doy := (153 * (if 2 <? m then m - 3 else m + 9) + 2) / 5 + d - 1 in
  let doe := yoe * 365 + yoe / 4 - yoe / 100 + doy in
  era * 146097 + doe - 719468.

(** The midnights a [datetime64[ns]] column can hold:
    1677-09-22 to 2262-04-11. *)
Definition TIMESTAMP_MIN_DAY : Z := -106751.
Definition TIMESTAMP_MAX_DAY : Z := 106751.

Definition valid_date (d : Z) : Prop :=
  TIMESTAMP_MIN_DAY <= d <= TIMESTAMP_MAX_DAY.

(** One decimal digit and its character. *)
Definition digit_char (n : Z) : ascii := ascii_of_N (48 + Z.to_N (n mod 10)).

Definition char_digit (c : ascii) : option Z :=
  let n := Z.of_N (N_of_ascii c) in
  if (48 <=? n) && (n <=? 57) then Some (n - 48) else None.

(** [%Y-%m-%d] *)
Definition format_date (z : Z) : string :=
  let '(y, m, d) := civil_from_days z in
  String (digit_char (y / 1000)) (String (digit_char (y / 100))
  (String (digit_char (y / 10)) (String (digit_char y)
  (String "-" (String (digit_char (m / 10)) (String (digit_char m)
  (String "-" (String (digit_char (d / 10)) (String (digit_char d)
   EmptyString))))))))).

(** Number of days of a month. *)
Definition is_leap (y : Z) : bool :=
  ((y mod 4 =? 0) && negb (y mod 100 =? 0)) || (y mod 400 =? 0).

Definition days_in_month (y m : Z) : Z :=
  if m =? 2 then (if is_leap y then 29 else 28)
  else if (m =? 4) || (m =? 6) || (m =? 9) || (m =? 11) then 30 else 31.

(** Reading [YYYY-MM-DD] back. *)
Definition parse_date (s : string) : option Z :=
  match s with
  | String y3 (String y2 (String y1 (String y0 (String "-"
    (String m1 (String m0 (String "-" (String d1 (String d0 EmptyString))))))))) =>
      match char_digit y3, char_digit y2, char_digit y1, char_digit y0,
            char_digit m1, char_digit m0, char_digit d1, char_digit d0 with
      | Some a3, Some a2, Some a1, Some a0, Some b1, Some b0, Some c1, Some c0 =>
          let y := 1000 * a3 + 100 * a2 + 10 * a1 + a0 in
          let m := 10 * b1 + b0 in
          let d := 10 * c1 + c0 in
          if (1 <=? m) && (m <=? 12) && (1 <=? d) && (d <=? days_in_month y m)
          then Some (days_from_civil y m d) else None
      | _, _, _, _, _, _, _, _ => None
      end
  | _ => None
  end.

(** ** Dataset provider (lines 16-40) *)

Definition PICKLE_FILE : string := "covid.pkl".

(** numpy's process-wide random source: a stream of raw draws and the
    position of the next one. *)
Record RandomState : Type := mkRandomState {
  entropy : nat -> Z;
  cursor : nat
}.

(** [np.random.randint(low, high, size)]: [size] integers of
    [[low, high)], and the advanced source. *)
Definition randint (low high : Z) (size : nat) (g : RandomState)
  : list Z * RandomState :=
  (map (fun i => low + entropy g (cursor g + i)%nat mod (high - low)) (seq 0 size),
   mkRandomState (entropy g) (cursor g + size)).

(** What the script can meet when it runs a library call. *)
Inductive exn : Type :=
| ValueError
| FileNotFoundError
| EOFError
| UnpicklingError.

Inductive result (A : Type) : Type :=
| Ok (a : A)
| Raise (e : exn).
Arguments Ok {A} a.
Arguments Raise {A} e.

(** [pd.date_range(start, periods=n)]: [n] consecutive days. *)
Definition date_range (start : string) (periods : nat) : result (list Z) :=
  match parse_date start with
  | Some d0 => Ok (map (fun i => d0 + Z.of_nat i) (seq 0 periods))
  | None => Raise ValueError
  end.

(** [pd.DataFrame(data)] on a dict of four columns: the columns must have
    one length. *)
Fixpoint zip_columns (ds : list Z) (ls : list string) (cs ts : list Z) : Table :=
  match ds, ls, cs, ts with
  | d :: ds', l :: ls', c :: cs', t :: ts' =>
      mkRow d l c t :: zip_columns ds' ls' cs' ts'
  | _, _, _, _ => []
  end.

Definition DataFrame (ds : list Z) (ls : list string) (cs ts : list Z) : result Table :=
  if (length ds =? length ls)%nat && (length ls =? length cs)%nat
     && (length cs =? length ts)%nat
  then Ok (zip_columns ds ls cs ts)
  else Raise ValueError.

(** A file of the working directory: a pickled data frame, or bytes that
    do not unpickle, with the exception [pd.read_pickle] raises on them
    ([EOFError] on an empty file, [UnpicklingError] on bytes that are no
    pickle, and so on). *)
Inductive file : Type :=
| Pickled (df : Table)
| Unreadable (e : exn).

(** The state the provider works on: the files, numpy's random source and
    the memo [st.cache_data] keeps for [load_data()]. *)
Record World : Type := mkWorld {
  fs : gmap string file;
  np_random : RandomState;
  cache : option Table
}.

(** [["India"]*200 + ["USA"]*200 + ["UK"]*200] *)
Definition location_column : list string :=
  replicate 200 "India"%string ++ replicate 200 "USA"%string
  ++ replicate 200 "UK"%string.

(** Lines 21-29.  The working directory is taken to be writable: the
    model has no failing [to_pickle], so what is proved of a run of
    [create_local_data] is proved of a run whose write went through. *)
Definition create_local_data (w : World) : result unit * World :=
  match date_range "2020-01-01" 600 with
  | Raise e => (Raise e, w)
  | Ok dates =>
      let '(cases, g1) := randint 100 100000 600 (np_random w) in
      let '(deaths, g2) := randint 1 2000 600 g1 in
      let w1 := mkWorld (fs w) g2 (cache w) in
      match DataFrame dates location_column cases deaths with
      | Raise e => (Raise e, w1)
      | Ok df => (Ok tt, mkWorld (<[PICKLE_FILE := Pickled df]> (fs w)) g2 (cache w))
      end
  end.

(** [os.path.exists] and [pd.read_pickle]. *)
Definition path_exists (p : string) (w : World) : bool :=
  bool_decide (is_Some (fs w !! p)).

Definition read_pickle (p : string) (w : World) : result Table :=
  match fs w !! p with
  | Some (Pickled df) => Ok df
  | Some (Unreadable e) => Raise e
  | None => Raise FileNotFoundError
  end.

(** The body of [load_data], without the decorator. *)
Definition load_data_body (w : World) : result Table * World :=
  if path_exists PICKLE_FILE w then (read_pickle PICKLE_FILE w, w)
  else
    match create_local_data w with
    | (Raise e, w1) => (Raise e, w1)
    | (Ok _, w1) => (read_pickle PICKLE_FILE w1, w1)
    end.

(** [@st.cache_data]: a call that returned is remembered; a call that
    raised is not. *)
Definition load_data (w : World) : result Table * World :=
  match cache w with
  | Some df => (Ok df, w)
  | None =>
      match load_data_body w with
      | (Ok df, w1) => (Ok df, mkWorld (fs w1) (np_random w1) (Some df))
      | (Raise e, w1) => (Raise e, w1)
      end
  end.

(** [df["date"].min()] and [.max()] (lines 47-48); [None] is [NaT]. *)
Definition series_min (s : list Z) : option Z :=
  match s with
  | [] => None
  | d :: s' => Some (foldl Z.min d s')
  end.

Definition series_max (s : list Z) : option Z :=
  match s with
  | [] => None
  | d :: s' => Some (foldl Z.max d s')
  end.

(** The day [n] days after 2020-01-01. *)
Definition day (n : Z) : Z := 18262 + n.

(** The table [create_local_data] pickles when numpy's random source is
    [g]: the dates, the labels, and the two columns of draws. *)
Definition synthesized (g : RandomState) : Table :=
  let '(cases, g1) := randint 100 100000 600 g in
  let '(deaths, _) := randint 1 2000 600 g1 in
  zip_columns (map (fun i => day (Z.of_nat i)) (seq 0 600)) location_column cases deaths.

(** The same table, given the two columns of draws by index. *)
Definition table_of_draws (cases deaths : nat -> Z) : Table :=
  zip_columns (map (fun i => day (Z.of_nat i)) (seq 0 600)) location_column
    (map cases (seq 0 600)) (map deaths (seq 0 600)).

(** A column of strictly increasing numbers. *)
Fixpoint increasing (s : list Z) : bool :=
  match s with
  | x :: (y :: _) as s' => (x <? y) && increasing s'
  | _ => true
  end.

(** ** CSV export (lines 110-112)

    [d.to_csv(index=False).encode("utf-8")]: pandas hands the header and
    the rows to Python's [csv.writer] with separator [,], the double
    quote as quote character, doubled quotes, minimal quoting and the line terminator of the
    platform, here a line feed. *)

Definition COMMA : ascii := ",".
Definition QUOTE : ascii := "034".
Definition LF : ascii := "010".
Definition CR : ascii := "013".

(** [str(n)] of an integer. *)
Definition str_of_int (z : Z) : string :=
  DecimalString.NilZero.string_of_int (Z.to_int z).

(** The characters that make [csv.writer] quote a field: separator, quote
    character and the characters of the line terminator.  Newer Python
    versions treat a carriage return like the line feed whatever the line
    terminator is; [quote_cr] tells which writer runs. *)
Definition is_special (quote_cr : bool) (c : ascii) : bool :=
  (c =? COMMA)%char || (c =? QUOTE)%char || (c =? LF)%char
  || (quote_cr && (c =? CR)%char).

Fixpoint needs_quoting (quote_cr : bool) (s : string) : bool :=
  match s with
  | EmptyString => false
  | String c s' => is_special quote_cr c || needs_quoting quote_cr s'
  end.

Fixpoint double_quotes (s : string) : string :=
  match s with
  | EmptyString => EmptyString
  | String c s' =>
      if (c =? QUOTE)%char then String QUOTE (String QUOTE (double_quotes s'))
      else String c (double_quotes s')
  end.

Definition csv_field (quote_cr : bool) (s : string) : string :=
  if needs_quoting quote_cr s
  then String QUOTE (double_quotes s +:+ String QUOTE EmptyString)
  else s.

(** One record: the fields joined by the separator, then the line
    terminator. *)
Fixpoint csv_join (fields : list string) : string :=
  match fields with
  | [] => String LF EmptyString
  | [f] => f +:+ String LF EmptyString
  | f :: fields' => f +:+ String COMMA (csv_join fields')
  end.

Definition csv_record (quote_cr : bool) (fields : list string) : string :=
  csv_join (map (csv_field quote_cr) fields).

Definition columns : list string :=
  ["date"; "location"; "total_cases"; "total_deaths"]%string.

(** The cells of one row as [to_csv] prints them. *)
Definition row_cells (r : Row) : list string :=
  [format_date (date r); location r; str_of_int (total_cases r);
   str_of_int (total_deaths r)].

Definition to_csv (quote_cr : bool) (df : Table) : string :=
  csv_record quote_cr columns
  +:+ foldr (fun r acc => csv_record quote_cr (row_cells r) +:+ acc) EmptyString df.

Definition to_csv_bytes (quote_cr : bool) (d : Table) : list Byte.byte :=
  list_byte_of_string (to_csv quote_cr d).

(** *** Reading side of the round trip *)

(** The script has no reader.  The round trip is stated against Python's
    [csv.reader] for the dialect of the writer (separator [,], the double
    quote as quote character, doubled quotes, not strict), reading the
    text line by line as a file opened with [newline=''] gives it,
    followed by the conversion of the cells to the column types. *)

(** Where the reader stands: the states of [csv.reader].  [AfterCR] is
    its state after a record ended by a carriage return, where a line
    feed that follows belongs to the same line break. *)
Inductive reader_state : Type :=
| StartRecord
| StartField
| InField
| InQuoted
| QuoteInQuoted
| AfterCR.

Definition snoc_char (s : string) (c : ascii) : string := s +:+ String c EmptyString.

(** The reader: its state, the field read so far, the fields of the
    current record, the finished records. *)
Record reader : Type := mkReader {
  state : reader_state;
  field : string;
  record : list string;
  records : list (list string)
}.

Definition is_newline (c : ascii) : bool := (c =? LF)%char || (c =? CR)%char.

Definition after_newline (c : ascii) : reader_state :=
  if (c =? CR)%char then AfterCR else StartRecord.

Definition save_field (r : reader) : reader :=
  mkReader StartField EmptyString (record r ++ [field r]) (records r).

Definition save_record (c : ascii) (r : reader) : reader :=
  mkReader (after_newline c) EmptyString [] (records r ++ [record r ++ [field r]]).

Definition add_char (st : reader_state) (c : ascii) (r : reader) : reader :=
  mkReader st (snoc_char (field r) c) (record r) (records r).

(** Modelled from the spec: a character met outside quotes.  The
    separator ends the field, a line feed or a carriage return ends the
    record, a quote opens a quoted field where a field starts, any other
    character belongs to the field. *)
Definition unquoted_char (c : ascii) (r : reader) : reader :=
  if (c =? COMMA)%char then save_field r
  else if is_newline c then save_record c r
  else
    match state r with
    | StartRecord | StartField =>
        if (c =? QUOTE)%char
        then mkReader InQuoted (field r) (record r) (records r)
        else add_char InField c r
    | _ => add_char InField c r
    end.

(** Modelled from the spec: a character met where a record starts.  A
    line break there is an empty line, which gives a record of no
    field. *)
Definition record_start_char (c : ascii) (r : reader) : reader :=
  if is_newline c
  then mkReader (after_newline c) EmptyString [] (records r ++ [[]])
  else unquoted_char c (mkReader StartRecord (field r) (record r) (records r)).

(** Modelled from the spec: one character through the reader, which the
    repository does not contain. *)
Definition process_char (r : reader) (c : ascii) : reader :=
  match state r with
  | InQuoted =>
      if (c =? QUOTE)%char
      then mkReader QuoteInQuoted (field r) (record r) (records r)
      else add_char InQuoted c r
  | QuoteInQuoted =>
      if (c =? QUOTE)%char then add_char InQuoted QUOTE r else unquoted_char c r
  | AfterCR =>
      if (c =? LF)%char
      then mkReader StartRecord (field r) (record r) (records r)
      else record_start_char c r
  | StartRecord => record_start_char c r
  | StartField | InField => unquoted_char c r
  end.

Fixpoint process (r : reader) (inp : string) : reader :=
  match inp with
  | EmptyString => r
  | String c inp' => process (process_char r c) inp'
  end.

(** The end of the text ends the record that is being read. *)
Definition end_of_input (r : reader) : list (list string) :=
  match state r with
  | StartRecord | AfterCR => records r
  | _ => records r ++ [record r ++ [field r]]
  end.

(** Modelled from the spec: the splitting of CSV text into records of
    fields, which the repository does not contain. *)
Definition csv_read (inp : string) : list (list string) :=
  end_of_input (process (mkReader StartRecord EmptyString [] []) inp).

(** Whether a cell holds a carriage return, and whether the writer keeps
    it away from the reader: a cell is safe when it has no carriage
    return or when the writer quotes it. *)
Fixpoint contains_cr (s : string) : bool :=
  match s with
  | EmptyString => false
  | String c s' => (c =? CR)%char || contains_cr s'
  end.

Definition cr_safe (quote_cr : bool) (s : string) : bool :=
  needs_quoting quote_cr s || negb (contains_cr s).

(** *** The writer undone *)

(** The joining of the writer can be undone whatever the cells hold:
    [csv_unjoin] splits the text at the separators and the line feeds
    that stand outside quotes and takes every other character,
    carriage returns too, as part of a cell.  It is no reader of the
    round trip; it serves to show that the writer loses nothing. *)
Inductive unjoin_state : Type :=
| AtFieldStart
| InPlain
| InQuotes
| AfterQuote.

Fixpoint csv_unjoin (st : unjoin_state) (fld : string) (rec : list string)
    (recs : list (list string)) (inp : string) : option (list (list string)) :=
  match inp with
  | EmptyString =>
      match st with
      | InQuotes => None
      | AtFieldStart =>
          match rec with
          | [] => Some recs
          | _ => Some (recs ++ [rec ++ [fld]])
          end
      | InPlain | AfterQuote => Some (recs ++ [rec ++ [fld]])
      end
  | String c inp' =>
      match st with
      | AtFieldStart | InPlain =>
          if (c =? COMMA)%char
          then csv_unjoin AtFieldStart EmptyString (rec ++ [fld]) recs inp'
          else if (c =? LF)%char
          then csv_unjoin AtFieldStart EmptyString [] (recs ++ [rec ++ [fld]]) inp'
          else
            match st with
            | AtFieldStart =>
                if (c =? QUOTE)%char then csv_unjoin InQuotes EmptyString rec recs inp'
                else csv_unjoin InPlain (snoc_char fld c) rec recs inp'
            | _ => csv_unjoin InPlain (snoc_char fld c) rec recs inp'
            end
      | InQuotes =>
          if (c =? QUOTE)%char then csv_unjoin AfterQuote fld rec recs inp'
          else csv_unjoin InQuotes (snoc_char fld c) rec recs inp'
      | AfterQuote =>
          if (c =? QUOTE)%char then csv_unjoin InQuotes (snoc_char fld QUOTE) rec recs inp'
          else if (c =? COMMA)%char
          then csv_unjoin AtFieldStart EmptyString (rec ++ [fld]) recs inp'
          else if (c =? LF)%char
          then csv_unjoin AtFieldStart EmptyString [] (recs ++ [rec ++ [fld]]) inp'
          else None
      end
  end.

(** What [csv_unjoin] does with the separator or line feed [d] that ends
    the field [fld]. *)
Definition after_delim (d : ascii) (fld : string) (rec : list string)
    (recs : list (list string)) (rest : string) : option (list (list string)) :=
  if (d =? COMMA)%char
  then csv_unjoin AtFieldStart EmptyString (rec ++ [fld]) recs rest
  else csv_unjoin AtFieldStart EmptyString [] (recs ++ [rec ++ [fld]]) rest.

Definition parse_int (s : string) : option Z :=
  option_map Z.of_int (DecimalString.NilZero.int_of_string s).

Definition parse_row (cells : list string) : option Row :=
  match cells with
  | [d; l; c; t] =>
      match parse_date d, parse_int c, parse_int t with
      | Some d', Some c', Some t' => Some (mkRow d' l c' t')
      | _, _, _ => None
      end
  | _ => None
  end.

Fixpoint parse_rows (recs : list (list string)) : option Table :=
  match recs with
  | [] => Some []
  | cells :: recs' =>
      match parse_row cells, parse_rows recs' with
      | Some r, Some df => Some (r :: df)
      | _, _ => None
      end
  end.

(** Modelled from the spec: parsing the payload back, which the
    repository does not contain.  The first record must be the header;
    every other record gives one row. *)
Definition read_csv (payload : list Byte.byte) : option Table :=
  match csv_read (string_of_list_byte payload) with
  | h :: recs =>
      if decide (h = columns) then parse_rows recs else None
  | [] => None
  end.

(** ** Sidebar defaults and presentation (lines 47-91) *)

(** [df["date"].min()] and [df["date"].max()], the default date range of
    the sidebar (lines 47-50). *)
Definition min_date (df : Table) : option Z := series_min (col_date df).
Definition max_date (df : Table) : option Z := series_max (col_date df).

(** [series == x] on a column of strings.  [x] is [None] when the widget
    that gives it returned [None]; no string equals [None]. *)
Definition series_eq (s : list string) (x : option string) : list bool :=
  map (fun l => match x with Some c => (l =? c)%string | None => false end) s.

(** [series > x]. *)
Definition series_gt (s : list Z) (x : Z) : list bool := map (fun v => x <? v) s.

(** [sorted(df_filtered["location"].unique())] (line 79). *)
Definition countries (dff : Table) : list string :=
  sort_keys (unique (col_location dff)).

(** [st.selectbox("Country", countries)] (line 80): the option the user
    picked, the first option when nothing valid is picked, [None] when
    there is no option. *)
Definition selectbox (options : list string) (choice : nat) : option string :=
  match options !! choice with
  | Some c => Some c
  | None => head options
  end.

(** [df_filtered[df_filtered["location"] == country]] (line 82). *)
Definition ts (dff : Table) (country : option string) : Table :=
  getitem_mask dff (series_eq (col_location dff) country).

(** [latest[(latest["total_cases"] > 0) & (latest["total_deaths"] > 0)]]
    (line 91). *)
Definition bubble (L : Table) : Table :=
  getitem_mask L
    (series_and (series_gt (map total_cases L) 0) (series_gt (map total_deaths L) 0)).

(** * Properties *)

(** ** Filter stage *)

Lemma getitem_mask_window (df : Table) (a b : Z) :
  df_filtered df a b = List.filter (in_window a b) df.
Proof.
  unfold df_filtered, series_and, series_ge, series_le, col_date.
  induction df as [|r df IH]; simpl; [reflexivity|].
  unfold in_window at 1.
  destruct ((a <=? date r) && (date r <=? b)); simpl; now rewrite IH.
Qed.

Lemma in_window_spec (a b : Z) (r : Row) :
  in_window a b r = true <-> a <= date r <= b.
Proof. unfold in_window. rewrite andb_true_iff, !Z.leb_le. tauto. Qed.

Lemma count_occ_filter (f : Row -> bool) (df : Table) (r : Row) :
  count_occ Row_eq_dec (List.filter f df) r
  = if f r then count_occ Row_eq_dec df r else 0%nat.
Proof.
  induction df as [|x df IH]; simpl.
  - now destruct (f r).
  - destruct (f x) eqn:Hx; simpl.
    + destruct (Row_eq_dec x r) as [->|Hne]; rewrite IH.
      * now rewrite Hx.
      * reflexivity.
    + rewrite IH. destruct (Row_eq_dec x r) as [->|Hne]; [|reflexivity].
      now rewrite Hx.
Qed.

Example df_filtered_inclusive :
  df_filtered [mkRow 4 "UK" 1 0; mkRow 5 "UK" 2 0; mkRow 7 "USA" 3 0; mkRow 8 "USA" 4 0] 5 7
  = [mkRow 5 "UK" 2 0; mkRow 7 "USA" 3 0].
Proof. reflexivity. Qed.

(** C2: the filter returns exactly the rows whose date lies in the window,
    both bounds included: a row is returned if and only if it is a row of
    the table with [a <= date <= b], and it is returned as often as it
    occurs in the table (nothing dropped, nothing duplicated). *)
Theorem df_filtered_exact (df : Table) (a b : Z) :
  (forall r, In r (df_filtered df a b) <-> In r df /\ a <= date r <= b) /\
  (forall r, count_occ Row_eq_dec (df_filtered df a b) r
             = if in_window a b r then count_occ Row_eq_dec df r else 0%nat) /\
  (forall r, a <= date r <= b ->
             count_occ Row_eq_dec (df_filtered df a b) r = count_occ Row_eq_dec df r).
Proof.
  rewrite getitem_mask_window. split; [|split].
  - intros r. rewrite filter_In, in_window_spec. reflexivity.
  - intros r. apply count_occ_filter.
  - intros r Hr. rewrite count_occ_filter.
    apply in_window_spec in Hr. now rewrite Hr.
Qed.

Lemma filter_is_sublist (f : Row -> bool) (df : Table) :
  sublist (List.filter f df) df.
Proof.
  induction df as [|r df IH]; simpl.
  - constructor.
  - destruct (f r); now constructor.
Qed.

(** C9: the filtered table is a subsequence of the input (its rows keep
    the relative order they have in the input), and running line 53
    binds [df_filtered] while the variable [df] still holds the input
    table. *)
Theorem df_filtered_subsequence (df : Table) (a b : Z) (ns : gmap string Table) :
  sublist (df_filtered df a b) df /\
  exists ns', exec_filter (<["df"%string := df]> ns) a b = Some ns' /\
              ns' !! "df"%string = Some df /\
              ns' !! "df_filtered"%string = Some (df_filtered df a b).
Proof.
  split.
  - rewrite getitem_mask_window. apply filter_is_sublist.
  - unfold exec_filter. rewrite lookup_insert_eq.
    eexists; split; [reflexivity|]. split.
    + rewrite lookup_insert_ne by discriminate. apply lookup_insert_eq.
    + apply lookup_insert_eq.
Qed.

(** ** Sorting *)

Section Sorting.
Variable key : Row -> Z.
Variable ascending : bool.

Lemma key_leb_le r1 r2 :
  key_leb key ascending r1 r2 = true <-> key_le key ascending r1 r2.
Proof. unfold key_leb, key_le. destruct ascending; apply Z.leb_le. Qed.


Lemma key_le_trans r1 r2 r3 :
  key_le key ascending r1 r2 -> key_le key ascending r2 r3 ->
  key_le key ascending r1 r3.
Proof. unfold key_le. destruct ascending; lia. Qed.

Lemma key_le_total r1 r2 :
  key_le key ascending r1 r2 \/ key_le key ascending r2 r1.
Proof. unfold key_le. destruct ascending; lia. Qed.

Lemma key_le_antisym r1 r2 :
  key_le key ascending r1 r2 -> key_le key ascending r2 r1 -> key r1 = key r2.
Proof. unfold key_le. destruct ascending; lia. Qed.

Lemma insert_row_perm r S : insert_row key ascending r S ≡ₚ r :: S.
Proof.
  induction S as [|s S IH]; simpl; [reflexivity|].
  destruct (key_leb key ascending r s); [reflexivity|].
  rewrite IH. apply perm_swap.
Qed.

Lemma insert_row_sorted r S :
  StronglySorted (key_le key ascending) S ->
  StronglySorted (key_le key ascending) (insert_row key ascending r S).
Proof.
  induction 1 as [|s S HS IH Hall]; simpl.
  - repeat constructor.
  - destruct (key_leb key ascending r s) eqn:Hrs.
    + apply key_leb_le in Hrs. constructor.
      * now constructor.
      * constructor; [exact Hrs|].
        eapply List.Forall_impl; [|exact Hall].
        intros x Hx. eapply key_le_trans; eassumption.
    + assert (Hsr : key_le key ascending s r).
      { destruct (key_le_total r s) as [H|H]; [|exact H].
        apply key_leb_le in H. congruence. }
      constructor; [exact IH|].
      rewrite insert_row_perm. now constructor.
Qed.

Lemma stable_sort_values_perm df : df ≡ₚ stable_sort_values key ascending df.
Proof.
  induction df as [|r df IH]; simpl; [reflexivity|].
  rewrite insert_row_perm. now constructor.
Qed.

Lemma stable_sort_values_sorted df :
  StronglySorted (key_le key ascending) (stable_sort_values key ascending df).
Proof.
  induction df as [|r df IH]; simpl; [constructor|].
  now apply insert_row_sorted.
Qed.

(** The stable kinds are among the outcomes of [sort_values]: the sort
    always has an outcome. *)
Lemma stable_sort_values_admissible df :
  sort_values key ascending df (stable_sort_values key ascending df).
Proof. split; [apply stable_sort_values_perm | apply stable_sort_values_sorted]. Qed.



(** A permutation that is ordered on the key is determined as soon as
    no two rows tie. *)
Lemma sorted_perm_unique S1 S2 :
  NoDup (map key S1) ->
  StronglySorted (key_le key ascending) S1 ->
  StronglySorted (key_le key ascending) S2 ->
  S1 ≡ₚ S2 -> S1 = S2.
Proof.
  revert S2. induction S1 as [|x S1 IH]; intros S2 Hnd H1 H2 Hp.
  - now apply Permutation_nil in Hp.
  - destruct S2 as [|y S2]; [now apply Permutation_sym, Permutation_nil in Hp|].
    apply StronglySorted_inv in H1 as [H1 Hx].
    apply StronglySorted_inv in H2 as [H2 Hy].
    rewrite Forall_forall in Hx, Hy.
    simpl in Hnd. apply NoDup_cons in Hnd as [Hnx Hnd].
    assert (x = y) as <-.
    { assert (Hyin : In y (x :: S1)).
      { eapply Permutation_in; [symmetry; exact Hp|now left]. }
      assert (Hxin : In x (y :: S2)).
      { eapply Permutation_in; [exact Hp|now left]. }
      destruct Hyin as [->|Hyin]; [reflexivity|].
      destruct Hxin as [->|Hxin]; [reflexivity|].
      exfalso. apply Hnx.
      rewrite (key_le_antisym x y); [now apply list_elem_of_In, in_map| |].
      - apply Hx, list_elem_of_In, Hyin.
      - apply Hy, list_elem_of_In, Hxin. }
    f_equal. apply IH; try assumption.
    now apply Permutation_cons_inv in Hp.
Qed.

Lemma sort_values_unique df S1 S2 :
  NoDup (map key df) ->
  sort_values key ascending df S1 -> sort_values key ascending df S2 -> S1 = S2.
Proof.
  intros Hnd [Hp1 Hs1] [Hp2 Hs2]. apply sorted_perm_unique; try assumption.
  - now rewrite <- Hp1.
  - now rewrite <- Hp1.
Qed.

(** Whether a table is ordered on the key is a matter of its key column
    alone. *)
Lemma sorted_same_keys S S' :
  map key S' = map key S ->
  StronglySorted (key_le key ascending) S ->
  StronglySorted (key_le key ascending) S'.
Proof.
  revert S'. induction S as [|x S IH]; intros [|y S'] Hk HS;
    try discriminate; [constructor|].
  injection Hk as Hxy Hk.
  apply StronglySorted_inv in HS as [HS Hx].
  constructor; [now apply IH|].
  assert (Hall : Forall (fun v => if ascending then key x <= v else v <= key x) (map key S)).
  { apply List.Forall_map. eapply List.Forall_impl; [|exact Hx]. intros z Hz. exact Hz. }
  rewrite <- Hk in Hall. apply List.Forall_map in Hall.
  eapply List.Forall_impl; [|exact Hall]. intros z Hz.
  unfold key_le. rewrite Hxy. exact Hz.
Qed.

Lemma sort_values_perm_invariant df1 df2 S :
  df1 ≡ₚ df2 -> sort_values key ascending df1 S -> sort_values key ascending df2 S.
Proof. intros Hp [Hp1 Hs]. split; [now rewrite <- Hp|exact Hs]. Qed.

End Sorting.

(** ** Ranking stage *)

Lemma df_head_take (n : Z) (df : Table) :
  0 <= n -> df_head n df = take (Z.to_nat n) df.
Proof. intros Hn. unfold df_head. now destruct (Z.ltb_spec n 0); [lia|]. Qed.

Lemma top_countries_total (L : Table) (n : Z) :
  top_countries L n (top_countries_stable L n).
Proof.
  exists (stable_sort_values total_cases false L).
  split; [apply stable_sort_values_admissible | reflexivity].
Qed.

Example top_countries_stable_ties :
  top_countries_stable [mkRow 3 "India" 50 1; mkRow 9 "UK" 70 2; mkRow 6 "USA" 50 3] 2
  = [mkRow 9 "UK" 70 2; mkRow 3 "India" 50 1].
Proof. reflexivity. Qed.

Example df_head_negative :
  df_head (-1) [mkRow 3 "India" 50 1; mkRow 9 "UK" 70 2; mkRow 6 "USA" 50 3]
  = [mkRow 3 "India" 50 1; mkRow 9 "UK" 70 2].
Proof. reflexivity. Qed.

(** C3: for [n >= 0] the ranking has an outcome, and every outcome has
    [min n |L|] rows, is ordered by [total_cases] descending, is the
    front part of a rearrangement of [L] whose remaining rows all have a
    [total_cases] no larger than that of any returned row, and is empty
    when [L] is empty. *)
Theorem top_countries_spec (L : Table) (n : Z) (Hn : 0 <= n) :
  (exists R, top_countries L n R) /\
  forall R, top_countries L n R ->
    length R = Nat.min (Z.to_nat n) (length L) /\
    StronglySorted (fun r1 r2 => total_cases r2 <= total_cases r1) R /\
    (exists rest, L ≡ₚ R ++ rest /\
       forall r r', In r R -> In r' rest -> total_cases r' <= total_cases r) /\
    (L = [] -> R = []).
Proof.
  split; [eexists; apply top_countries_total|].
  intros R (S & [Hp Hs] & ->). rewrite df_head_take by exact Hn.
  set (k := Z.to_nat n).
  assert (Hsplit : S = take k S ++ drop k S) by (symmetry; apply take_drop).
  rewrite Hsplit in Hs.
  repeat split.
  - rewrite length_take. now rewrite (Permutation_length Hp).
  - apply StronglySorted_app_1_l in Hs. exact Hs.
  - exists (drop k S). split; [now rewrite take_drop|].
    intros r r' Hr Hr'.
    apply (StronglySorted_app_1_elem_of _ _ _ r r' Hs); now apply list_elem_of_In.
  - intros ->. apply Permutation_nil in Hp. subst S. apply take_nil.
Qed.

(** A ranking of three countries, two of them kept. *)
Lemma top_countries_spec_witness :
  let L := [mkRow 3 "India" 50 1; mkRow 9 "UK" 70 2; mkRow 6 "USA" 60 3]%string in
  0 <= 2 /\
  top_countries L 2 [mkRow 9 "UK" 70 2; mkRow 6 "USA" 60 3]%string /\
  length [mkRow 9 "UK" 70 2; mkRow 6 "USA" 60 3]%string = Nat.min (Z.to_nat 2) (length L).
Proof.
  intros L. split; [lia|].
  assert (Htop : top_countries L 2 [mkRow 9 "UK" 70 2; mkRow 6 "USA" 60 3]%string)
    by apply (top_countries_total L 2).
  split; [exact Htop|].
  exact (proj1 (proj2 (top_countries_spec L 2 ltac:(lia)) _ Htop)).
Defined.

(** ** Order of the group keys *)

Lemma ascii_compare_refl (a : ascii) : Ascii.compare a a = Eq.
Proof. unfold Ascii.compare. apply N.compare_refl. Qed.

Lemma string_compare_refl (s : string) : String.compare s s = Eq.
Proof. induction s as [|a s IH]; simpl; [reflexivity|]. now rewrite ascii_compare_refl. Qed.

Lemma ascii_compare_lt_trans (a b c : ascii) :
  Ascii.compare a b = Lt -> Ascii.compare b c = Lt -> Ascii.compare a c = Lt.
Proof.
  unfold Ascii.compare. rewrite !N.compare_lt_iff. apply N.lt_trans.
Qed.

Lemma string_lt_trans (s1 s2 s3 : string) :
  string_lt s1 s2 -> string_lt s2 s3 -> string_lt s1 s3.
Proof.
  unfold string_lt. revert s2 s3.
  induction s1 as [|a s1 IH]; intros [|b s2] [|c s3]; simpl; try congruence.
  destruct (Ascii.compare a b) eqn:Hab; try discriminate;
    destruct (Ascii.compare b c) eqn:Hbc; try discriminate; intros H1 H2.
  - apply Ascii.compare_eq_iff in Hab, Hbc. subst.
    rewrite ascii_compare_refl. eapply IH; eassumption.
  - apply Ascii.compare_eq_iff in Hab. subst. now rewrite Hbc.
  - apply Ascii.compare_eq_iff in Hbc. subst. now rewrite Hab.
  - now rewrite (ascii_compare_lt_trans a b c).
Qed.

Lemma string_lt_irrefl (s : string) : ~ string_lt s s.
Proof.
  unfold string_lt. now rewrite string_compare_refl.
Qed.

Lemma string_lt_asym (s1 s2 : string) : string_lt s1 s2 -> ~ string_lt s2 s1.
Proof.
  intros H1 H2. apply (string_lt_irrefl s1). eapply string_lt_trans; eassumption.
Qed.

Lemma leb_neq_lt (s1 s2 : string) :
  String.leb s1 s2 = true -> s1 <> s2 -> string_lt s1 s2.
Proof.
  unfold String.leb, string_lt. intros Hle Hne.
  destruct (String.compare s1 s2) eqn:Hc; try discriminate; [|reflexivity].
  now apply String.compare_eq_iff in Hc.
Qed.

Lemma leb_false_lt (s1 s2 : string) :
  String.leb s1 s2 = false -> string_lt s2 s1.
Proof.
  unfold String.leb, string_lt. rewrite (String.compare_antisym s1 s2).
  destruct (String.compare s2 s1); simpl; congruence.
Qed.

#[local] Instance string_lt_antisymm : AntiSymm (=) string_lt.
Proof. intros s1 s2 H1 H2. now apply string_lt_asym in H1. Qed.

Lemma insert_key_perm (k : string) (ks : list string) : insert_key k ks ≡ₚ k :: ks.
Proof.
  induction ks as [|k' ks IH]; simpl; [reflexivity|].
  destruct (String.leb k k'); [reflexivity|].
  rewrite IH. apply perm_swap.
Qed.

Lemma sort_keys_perm (ks : list string) : sort_keys ks ≡ₚ ks.
Proof.
  induction ks as [|k ks IH]; simpl; [reflexivity|].
  rewrite insert_key_perm. now constructor.
Qed.

Lemma insert_key_sorted (k : string) (ks : list string) :
  k ∉ ks -> StronglySorted string_lt ks -> StronglySorted string_lt (insert_key k ks).
Proof.
  intros Hk HS. induction HS as [|k' ks HS IH Hall]; simpl.
  - repeat constructor.
  - apply not_elem_of_cons in Hk as [Hne Hk].
    destruct (String.leb k k') eqn:Hle.
    + assert (Hlt : string_lt k k') by now apply leb_neq_lt.
      constructor; [now constructor|].
      constructor; [exact Hlt|].
      eapply List.Forall_impl; [|exact Hall].
      intros x Hx. eapply string_lt_trans; eassumption.
    + apply leb_false_lt in Hle.
      constructor; [now apply IH|].
      rewrite insert_key_perm. now constructor.
Qed.

Lemma sort_keys_sorted (ks : list string) :
  NoDup ks -> StronglySorted string_lt (sort_keys ks).
Proof.
  induction 1 as [|k ks Hk Hnd IH]; simpl; [constructor|].
  apply insert_key_sorted; [|exact IH].
  now rewrite sort_keys_perm.
Qed.

Lemma unique_elem (ks : list string) (k : string) : k ∈ unique ks <-> k ∈ ks.
Proof.
  induction ks as [|k' ks IH]; simpl; [reflexivity|].
  rewrite !elem_of_cons, !list_elem_of_In, filter_In, <- !list_elem_of_In, IH.
  rewrite negb_true_iff, String.eqb_neq.
  destruct (string_dec k k'); tauto.
Qed.

Lemma unique_NoDup (ks : list string) : NoDup (unique ks).
Proof.
  induction ks as [|k ks IH]; simpl; constructor.
  - rewrite list_elem_of_In, filter_In, negb_true_iff, String.eqb_neq. tauto.
  - apply NoDup_ListNoDup, List.NoDup_filter, NoDup_ListNoDup, IH.
Qed.

Lemma unique_perm (ks1 ks2 : list string) :
  ks1 ≡ₚ ks2 -> unique ks1 ≡ₚ unique ks2.
Proof.
  intros Hp. apply NoDup_Permutation; try apply unique_NoDup.
  intros k. now rewrite !unique_elem, Hp.
Qed.

(** The sorted keys are a matter of the set of locations alone. *)
Lemma sort_keys_unique_perm (ks1 ks2 : list string) :
  ks1 ≡ₚ ks2 -> sort_keys (unique ks1) = sort_keys (unique ks2).
Proof.
  intros Hp. apply (StronglySorted_unique string_lt).
  - apply sort_keys_sorted, unique_NoDup.
  - apply sort_keys_sorted, unique_NoDup.
  - rewrite !sort_keys_perm. now apply unique_perm.
Qed.

(** ** Aggregation stage *)

Lemma last_of_cons (k : string) (r : Row) (S : Table) :
  last_of k (r :: S)
  = match last_of k S with
    | Some x => Some x
    | None => if (location r =? k)%string then Some r else None
    end.
Proof.
  unfold last_of. simpl. destruct (location r =? k)%string.
  - apply last_cons.
  - now destruct (last _).
Qed.

Lemma group_last_foldl (S : Table) (m : gmap string Row) (k : string) :
  foldl (fun m r => <[location r := r]> m) m S !! k
  = match last_of k S with Some r => Some r | None => m !! k end.
Proof.
  revert m. induction S as [|r S IH]; intros m; [reflexivity|].
  simpl foldl. rewrite IH, last_of_cons.
  destruct (last_of k S); [reflexivity|].
  destruct (String.eqb_spec (location r) k) as [->|Hne].
  - apply lookup_insert_eq.
  - now apply lookup_insert_ne.
Qed.

Lemma group_last_lookup (S : Table) (k : string) :
  group_last S !! k = last_of k S.
Proof.
  unfold group_last. rewrite group_last_foldl, lookup_empty.
  now destruct (last_of k S).
Qed.

Lemma last_of_Some (k : string) (S : Table) (r : Row) :
  last_of k S = Some r -> In r S /\ location r = k.
Proof.
  unfold last_of. intros H. apply last_Some_elem_of, list_elem_of_In, filter_In in H.
  now rewrite String.eqb_eq in H.
Qed.

Lemma last_of_is_Some (k : string) (S : Table) :
  In k (col_location S) -> exists r, last_of k S = Some r.
Proof.
  unfold col_location. rewrite in_map_iff. intros (r & Hr & Hin).
  destruct (last_of k S) as [x|] eqn:Hl; [now exists x|].
  unfold last_of in Hl. apply last_None in Hl.
  assert (Hf : In r (List.filter (fun r => (location r =? k)%string) S)).
  { apply filter_In. split; [exact Hin|]. now apply String.eqb_eq. }
  rewrite Hl in Hf. destruct Hf.
Qed.

Lemma omap_keys (f : string -> option Row) (ks : list string) :
  (forall k, In k ks -> exists r, f k = Some r /\ location r = k) ->
  map location (omap f ks) = ks.
Proof.
  induction ks as [|k ks IH]; intros H; [reflexivity|].
  destruct (H k) as (r & Hr & Hloc); [now left|].
  simpl. rewrite Hr. simpl. rewrite Hloc. f_equal.
  apply IH. intros k' Hk'. apply H. now right.
Qed.

(** The location column of the aggregation: the sorted distinct
    locations of its input. *)
Lemma groupby_last_locations (S : Table) :
  col_location (groupby_last S) = sort_keys (unique (col_location S)).
Proof.
  unfold groupby_last, col_location at 1. apply omap_keys.
  intros k Hk.
  apply list_elem_of_In in Hk. rewrite sort_keys_perm, unique_elem in Hk.
  apply list_elem_of_In, last_of_is_Some in Hk as [r Hr].
  exists r. rewrite group_last_lookup. split; [exact Hr|].
  now apply last_of_Some in Hr.
Qed.

Lemma groupby_last_elem (S : Table) (r : Row) :
  In r (groupby_last S) -> last_of (location r) S = Some r.
Proof.
  unfold groupby_last. rewrite <- list_elem_of_In, list_elem_of_omap.
  intros (k & _ & Hk). rewrite group_last_lookup in Hk.
  now destruct (last_of_Some _ _ _ Hk) as [_ ->].
Qed.

Lemma filter_StronglySorted (R : Row -> Row -> Prop) (f : Row -> bool) (S : Table) :
  StronglySorted R S -> StronglySorted R (List.filter f S).
Proof.
  induction 1 as [|x S HS IH Hall]; simpl; [constructor|].
  destruct (f x); [|exact IH].
  constructor; [exact IH|].
  rewrite List.Forall_forall in *. intros y Hy. apply Hall.
  now apply filter_In in Hy.
Qed.

(** After the date sort the last row of a location carries its largest
    date. *)
Lemma last_of_sorted (k : string) (S : Table) (r : Row) :
  StronglySorted (key_le date true) S ->
  last_of k S = Some r ->
  forall r', In r' S -> location r' = k -> date r' <= date r.
Proof.
  intros HS Hl r' Hin Hk. unfold last_of in Hl.
  apply (filter_StronglySorted _ (fun r => (location r =? k)%string)) in HS.
  assert (Hf : In r' (List.filter (fun r => (location r =? k)%string) S)).
  { apply filter_In. split; [exact Hin|]. now apply String.eqb_eq. }
  apply last_Some in Hl as [F HF]. rewrite HF in HS, Hf.
  apply in_app_or in Hf as [Hf|[<-|[]]]; [|lia].
  apply (StronglySorted_app_1_elem_of _ _ _ r' r HS).
  - now apply list_elem_of_In.
  - apply list_elem_of_here.
Qed.

Lemma max_date_of_spec (l : string) (df : Table) (d : Z) :
  max_date_of l df = Some d <->
  (exists r, In r df /\ location r = l /\ date r = d) /\
  (forall r, In r df -> location r = l -> date r <= d).
Proof.
  revert d. induction df as [|x df IH]; intros d; simpl.
  - split; [discriminate|]. now intros [(r & [] & _) _].
  - destruct (String.eqb_spec (location x) l) as [Hx|Hx].
    + fold (max_date_of l df). destruct (max_date_of l df) as [d'|] eqn:Hm.
      * destruct (proj1 (IH d') eq_refl) as [(r & Hr & Hl & Hd) Hmax].
        split.
        -- intros [= <-]. split.
           ++ destruct (Z.max_spec (date x) d') as [[_ ->]|[_ ->]].
              ** exists r. auto.
              ** exists x. auto.
           ++ intros r' [<-|Hr'] Hl'; [lia|]. specialize (Hmax r' Hr' Hl'). lia.
        -- intros [(r' & Hr' & Hl' & Hd') Hmax']. f_equal.
           assert (date x <= d) by (apply Hmax'; auto).
           assert (d' <= d) by (rewrite <- Hd; apply Hmax'; auto).
           destruct Hr' as [<-|Hr']; [lia|].
           specialize (Hmax r' Hr' Hl'). lia.
      * assert (Hnone : forall r, In r df -> location r <> l).
        { intros r Hr Hl. destruct (last_of_is_Some l df) as [y Hy].
          - unfold col_location. apply in_map_iff. eauto.
          - apply last_of_Some in Hy as [Hy1 Hy2].
            assert (Hsome : exists d0, max_date_of l df = Some d0).
            { clear -Hy1 Hy2. induction df as [|z df IHdf]; [destruct Hy1|].
              simpl. fold (max_date_of l df).
              destruct (String.eqb_spec (location z) l); [eauto|].
              destruct Hy1 as [->|Hy1]; [contradiction|]. now apply IHdf. }
            destruct Hsome as [d0 Hd0]. congruence. }
        split.
        -- intros [= <-]. split; [exists x; auto|].
           intros r' [<-|Hr'] Hl'; [lia|]. now apply Hnone in Hr'.
        -- intros [(r' & [<-|Hr'] & Hl' & Hd') _]; [now f_equal|].
           now apply Hnone in Hr'.
    + fold (max_date_of l df). rewrite IH. split.
      * intros [(r & Hr & Hl & Hd) Hmax]. split; [exists r; auto|].
        intros r' [<-|Hr'] Hl'; [contradiction|]. now apply Hmax.
      * intros [(r & [<-|Hr] & Hl & Hd) Hmax]; [contradiction|].
        split; [exists r; auto|]. intros r' Hr' Hl'. apply Hmax; auto.
Qed.

Lemma latest_total (dff : Table) : latest dff (latest_stable dff).
Proof.
  exists (stable_sort_values date true dff).
  split; [apply stable_sort_values_admissible | reflexivity].
Qed.

Example latest_stable_keeps_last :
  latest_stable [mkRow 6 "USA" 30 3; mkRow 7 "India" 20 2; mkRow 6 "USA" 10 1;
                 mkRow 2 "India" 5 0]
  = [mkRow 7 "India" 20 2; mkRow 6 "USA" 10 1].
Proof. reflexivity. Qed.

(** C1: the aggregation has an outcome, and every outcome has exactly one
    row per distinct location of the input (the locations of the outcome
    are pairwise different, they are the locations of the input, and
    their number is the number of distinct input locations); each
    returned row is a row of the input whose date is the largest date of
    its location; an empty input gives an empty outcome. *)
Theorem latest_spec (dff : Table) :
  (exists L, latest dff L) /\
  forall L, latest dff L ->
    NoDup (col_location L) /\
    (forall l, In l (col_location L) <-> In l (col_location dff)) /\
    length L = nunique (col_location dff) /\
    (forall r, In r L -> In r dff /\ max_date_of (location r) dff = Some (date r)) /\
    (dff = [] -> L = []).
Proof.
  split; [eexists; apply latest_total|].
  intros L (S & [Hp Hs] & ->).
  assert (Hcol : col_location dff ≡ₚ col_location S) by now apply Permutation_map.
  repeat split.
  - rewrite groupby_last_locations, sort_keys_perm. apply unique_NoDup.
  - rewrite groupby_last_locations, <- !list_elem_of_In, sort_keys_perm, unique_elem.
    now rewrite Hcol.
  - rewrite groupby_last_locations, <- !list_elem_of_In, sort_keys_perm, unique_elem.
    now rewrite Hcol.
  - unfold nunique. rewrite <- (length_map location). fold (col_location (groupby_last S)).
    rewrite groupby_last_locations. rewrite (Permutation_length (sort_keys_perm _)).
    apply Permutation_length. symmetry. now apply unique_perm.
  - apply groupby_last_elem, last_of_Some in H as [H _].
    eapply Permutation_in; [symmetry; exact Hp|exact H].
  - apply groupby_last_elem in H. apply max_date_of_spec. split.
    + destruct (last_of_Some _ _ _ H) as [Hin _].
      exists r. repeat split.
      eapply Permutation_in; [symmetry; exact Hp|exact Hin].
    + intros r' Hr' Hl'. eapply last_of_sorted; try eassumption.
      eapply Permutation_in; [exact Hp|exact Hr'].
  - intros ->. apply Permutation_nil in Hp. now subst S.
Qed.

(** Two dates of one location and one of another. *)
Lemma latest_spec_witness :
  let dff := [mkRow 5 "USA" 10 1; mkRow 7 "India" 20 2; mkRow 6 "USA" 30 3]%string in
  let L := [mkRow 7 "India" 20 2; mkRow 6 "USA" 30 3]%string in
  latest dff L /\ length L = nunique (col_location dff) /\
  max_date_of "USA" dff = Some 6.
Proof.
  intros dff L.
  assert (HL : latest dff L) by apply (latest_total dff).
  destruct (proj2 (latest_spec dff) L HL) as (_ & _ & Hlen & Hmax & _).
  split; [exact HL|]. split; [exact Hlen|].
  apply (Hmax (mkRow 6 "USA" 30 3)). right. now left.
Defined.

(** ** The key column of a sorted table *)



(** ** Dataset provider *)

Lemma date_range_2020 :
  date_range "2020-01-01" 600 = Ok (map (fun i => day (Z.of_nat i)) (seq 0 600)).
Proof. reflexivity. Qed.

Lemma randint_length (low high : Z) (size : nat) (g : RandomState) :
  length (fst (randint low high size g)) = size.
Proof. unfold randint. simpl. now rewrite length_map, length_seq. Qed.

(** The draws lie in [[low, high)]. *)
Lemma randint_range (low high : Z) (size : nat) (g : RandomState) :
  low < high ->
  List.Forall (fun x => low <= x < high) (fst (randint low high size g)).
Proof.
  intros Hlh. unfold randint. simpl. apply List.Forall_map, List.Forall_forall.
  intros i _. pose proof (Z.mod_pos_bound (entropy g (cursor g + i)%nat) (high - low)).
  lia.
Qed.

(** A run of [create_local_data] pickles [synthesized] and advances the
    random source by the 1200 draws. *)
Lemma create_local_data_ok (w : World) :
  create_local_data w
  = (Ok tt, mkWorld (<[PICKLE_FILE := Pickled (synthesized (np_random w))]> (fs w))
                    (mkRandomState (entropy (np_random w)) (cursor (np_random w) + 1200))
                    (cache w)).
Proof.
  unfold create_local_data, synthesized. rewrite date_range_2020.
  unfold randint, DataFrame. simpl entropy. simpl cursor.
  rewrite !length_map, !length_seq.
  replace (cursor (np_random w) + 600 + 600)%nat with (cursor (np_random w) + 1200)%nat by lia.
  reflexivity.
Qed.

Lemma load_data_body_no_file (w : World) :
  fs w !! PICKLE_FILE = None ->
  load_data_body w
  = (Ok (synthesized (np_random w)),
     mkWorld (<[PICKLE_FILE := Pickled (synthesized (np_random w))]> (fs w))
             (mkRandomState (entropy (np_random w)) (cursor (np_random w) + 1200))
             (cache w)).
Proof.
  intros Hnone. unfold load_data_body, path_exists.
  rewrite bool_decide_eq_false_2 by (rewrite Hnone; apply is_Some_None).
  rewrite create_local_data_ok. unfold read_pickle. simpl fs.
  now rewrite lookup_insert_eq.
Qed.

Lemma load_data_body_file (w : World) (f : file) :
  fs w !! PICKLE_FILE = Some f ->
  load_data_body w
  = (match f with Pickled df => Ok df | Unreadable e => Raise e end, w).
Proof.
  intros Hf. unfold load_data_body, path_exists.
  rewrite bool_decide_eq_true_2 by (rewrite Hf; eauto).
  unfold read_pickle. now rewrite Hf.
Qed.

(** C7: a second call of [load_data] gives what the first call gave; it
    leaves the files and numpy's random source as the first call left
    them (no new draws), and after a call that returned a table it is
    answered from the memo, which holds that table. *)
Theorem load_data_idempotent (w : World) :
  let '(r1, w1) := load_data w in
  let '(r2, w2) := load_data w1 in
  r2 = r1 /\ np_random w2 = np_random w1 /\ fs w2 = fs w1 /\
  (forall df, r1 = Ok df -> cache w1 = Some df /\ w2 = w1).
Proof.
  unfold load_data at 1. destruct (cache w) as [df0|] eqn:Hc.
  - unfold load_data. rewrite Hc.
    split; [reflexivity|]. split; [reflexivity|]. split; [reflexivity|].
    intros df [= <-]. now split.
  - destruct (fs w !! PICKLE_FILE) as [f|] eqn:Hf.
    + rewrite (load_data_body_file w f Hf). destruct f as [df0|e].
      * unfold load_data. simpl.
        split; [reflexivity|]. split; [reflexivity|]. split; [reflexivity|].
        intros df [= <-]. now split.
      * unfold load_data. rewrite Hc, (load_data_body_file w (Unreadable e) Hf).
        split; [reflexivity|]. split; [reflexivity|]. split; [reflexivity|].
        intros df [=].
    + rewrite (load_data_body_no_file w Hf).
      unfold load_data. simpl.
      split; [reflexivity|]. split; [reflexivity|]. split; [reflexivity|].
      intros df [= <-]. now split.
Qed.

(** ** Empty filtered table *)

Lemma latest_nil (L : Table) : latest [] L <-> L = [].
Proof.
  split.
  - intros (S & [Hp _] & ->). apply Permutation_nil in Hp. now subst S.
  - intros ->. apply (latest_total []).
Qed.

Lemma top_countries_nil (n : Z) (R : Table) : top_countries [] n R <-> R = [].
Proof.
  split.
  - intros (S & [Hp _] & ->). apply Permutation_nil in Hp. subst S.
    unfold df_head. destruct (n <? 0); apply take_nil.
  - intros ->. exists []. split; [split; [reflexivity|constructor]|].
    unfold df_head. destruct (n <? 0); now rewrite take_nil.
Qed.

Lemma header_only (quote_cr : bool) :
  to_csv quote_cr [] = ("date,location,total_cases,total_deaths" +:+ String LF EmptyString).
Proof. now destruct quote_cr. Qed.

(** C8: a window that lies before every date of the table, or after
    every date, filters to the empty table; and whenever the filtered
    table is empty the aggregation has the empty table as its one
    outcome, so has the ranking for every [n], the row count and the
    location count are 0, and the CSV payload is the header line, which
    reads back as the empty table. *)
Theorem empty_filtered_table (df : Table) (a b : Z) :
  ((forall r, In r df -> b < date r) \/ (forall r, In r df -> date r < a) ->
   df_filtered df a b = []) /\
  (df_filtered df a b = [] ->
   (forall L, latest (df_filtered df a b) L <-> L = []) /\
   (forall n R, top_countries [] n R <-> R = []) /\
   (forall n R, ranking (df_filtered df a b) n R <-> R = []) /\
   len (df_filtered df a b) = 0%nat /\
   (forall L, latest (df_filtered df a b) L -> nunique (col_location L) = 0%nat) /\
   (forall q, to_csv_bytes q (df_filtered df a b)
              = list_byte_of_string
                  ("date,location,total_cases,total_deaths" +:+ String LF EmptyString) /\
              read_csv (to_csv_bytes q (df_filtered df a b)) = Some [])).
Proof.
  split.
  - intros Hout. rewrite getitem_mask_window.
    induction df as [|r df IH]; [reflexivity|]. simpl.
    assert (Hr : in_window a b r = false).
    { apply not_true_is_false. rewrite in_window_spec.
      destruct Hout as [H|H]; specialize (H r (or_introl eq_refl)); lia. }
    rewrite Hr. apply IH.
    destruct Hout as [H|H]; [left|right]; intros r' Hr'; apply H; now right.
  - intros ->. repeat split.
    + now apply latest_nil.
    + now apply latest_nil.
    + now apply top_countries_nil.
    + now apply top_countries_nil.
    + intros (L & HL & HR). apply latest_nil in HL. subst L.
      now apply top_countries_nil in HR.
    + intros ->. exists []. split; [now apply latest_nil | now apply top_countries_nil].
    + intros L HL. apply latest_nil in HL. now subst L.
    + unfold to_csv_bytes. now rewrite header_only.
    + now destruct q.
Qed.

(** A window before the first date. *)
Lemma empty_filtered_table_witness :
  let df := [mkRow 18262 "India" 500 3; mkRow 18263 "UK" 700 4]%string in
  (forall r, In r df -> 18000 < date r) /\
  df_filtered df 17000 18000 = [] /\
  (forall n R, ranking (df_filtered df 17000 18000) n R <-> R = []).
Proof.
  intros df.
  assert (Hout : forall r, In r df -> 18000 < date r).
  { intros r [<-|[<-|[]]]; simpl; lia. }
  destruct (empty_filtered_table df 17000 18000) as [H1 H2].
  specialize (H1 (or_introl Hout)).
  split; [exact Hout|]. split; [exact H1|].
  exact (proj1 (proj2 (proj2 (H2 H1)))).
Defined.

(** ** The synthesized dataset *)

Lemma increasing_Sorted (s : list Z) : increasing s = true -> Sorted Z.lt s.
Proof.
  induction s as [|x s IH]; intros H; constructor.
  - apply IH. destruct s; [reflexivity|].
    simpl in H. now apply andb_true_iff in H as [_ H].
  - destruct s; constructor.
    simpl in H. apply andb_true_iff in H as [H _]. now apply Z.ltb_lt.
Qed.

Lemma increasing_dates (S : Table) :
  increasing (col_date S) = true ->
  StronglySorted (key_le date true) S /\ NoDup (map date S).
Proof.
  intros H. apply increasing_Sorted, Sorted_StronglySorted in H; [|apply _].
  unfold col_date in H. induction S as [|r S IH]; simpl in *.
  - split; constructor.
  - apply StronglySorted_inv in H as [HS Hall].
    destruct (IH HS) as [IH1 IH2]. split.
    + constructor; [exact IH1|].
      apply (proj1 (List.Forall_map date (Z.lt (date r)) S)) in Hall.
      eapply List.Forall_impl; [|exact Hall]. intros x Hx. simpl in *. lia.
    + constructor; [|exact IH2].
      intros Hin. rewrite List.Forall_forall in Hall.
      apply list_elem_of_In, Hall in Hin. lia.
Qed.

(** A table whose dates increase is the one outcome of its date sort. *)
Lemma sort_values_increasing (df S : Table) :
  increasing (col_date df) = true -> sort_values date true df S -> S = df.
Proof.
  intros Hinc HS. destruct (increasing_dates df Hinc) as [Hs Hnd].
  eapply sort_values_unique; [exact Hnd|exact HS|].
  split; [reflexivity|exact Hs].
Qed.

Lemma synthesized_draws (g : RandomState) :
  synthesized g
  = table_of_draws (fun i => 100 + entropy g (cursor g + i)%nat mod (100000 - 100))
                   (fun i => 1 + entropy g (cursor g + 600 + i)%nat mod (2000 - 1)).
Proof. reflexivity. Qed.

Section Draws.
Variables cases deaths : nat -> Z.

Lemma draws_shape :
  length (table_of_draws cases deaths) = 600%nat /\
  col_date (table_of_draws cases deaths) = map (fun i => day (Z.of_nat i)) (seq 0 600) /\
  col_location (table_of_draws cases deaths)
  = replicate 200 "India"%string ++ replicate 200 "USA"%string
    ++ replicate 200 "UK"%string.
Proof.
  split; [|split].
  - vm_cast_no_check (eq_refl 600%nat).
  - vm_cast_no_check (eq_refl (map (fun i => day (Z.of_nat i)) (seq 0 600))).
  - vm_cast_no_check (eq_refl location_column).
Qed.

Lemma draws_range :
  series_min (col_date (table_of_draws cases deaths)) = Some (day 0) /\
  series_max (col_date (table_of_draws cases deaths)) = Some (day 599) /\
  increasing (col_date (table_of_draws cases deaths)) = true.
Proof.
  split; [|split].
  - vm_cast_no_check (eq_refl (Some (day 0))).
  - vm_cast_no_check (eq_refl (Some (day 599))).
  - vm_cast_no_check (eq_refl true).
Qed.

Lemma draws_full_window :
  df_filtered (table_of_draws cases deaths) (day 0) (day 599)
  = table_of_draws cases deaths.
Proof. vm_cast_no_check (eq_refl (table_of_draws cases deaths)). Qed.

Lemma draws_rows :
  table_of_draws cases deaths !! 199%nat
  = Some (mkRow (day 199) "India" (cases 199%nat) (deaths 199%nat)) /\
  table_of_draws cases deaths !! 599%nat
  = Some (mkRow (day 599) "UK" (cases 599%nat) (deaths 599%nat)) /\
  table_of_draws cases deaths !! 399%nat
  = Some (mkRow (day 399) "USA" (cases 399%nat) (deaths 399%nat)).
Proof.
  split; [|split].
  - vm_cast_no_check (eq_refl (Some (mkRow (day 199) "India" (cases 199%nat) (deaths 199%nat)))).
  - vm_cast_no_check (eq_refl (Some (mkRow (day 599) "UK" (cases 599%nat) (deaths 599%nat)))).
  - vm_cast_no_check (eq_refl (Some (mkRow (day 399) "USA" (cases 399%nat) (deaths 399%nat)))).
Qed.

Lemma draws_groupby_last :
  groupby_last (table_of_draws cases deaths)
  = [mkRow (day 199) "India" (cases 199%nat) (deaths 199%nat);
     mkRow (day 599) "UK" (cases 599%nat) (deaths 599%nat);
     mkRow (day 399) "USA" (cases 399%nat) (deaths 399%nat)].
Proof.
  vm_cast_no_check
    (eq_refl [mkRow (day 199) "India" (cases 199%nat) (deaths 199%nat);
              mkRow (day 599) "UK" (cases 599%nat) (deaths 599%nat);
              mkRow (day 399) "USA" (cases 399%nat) (deaths 399%nat)]).
Qed.

End Draws.

(** C4: on a first run (no pickle file, nothing memoized) [load_data]
    returns the synthesized table: 600 rows, dates day 0 to day 599 in
    order, labels 200 times India, 200 times USA, 200 times UK.  Its
    smallest and largest dates are day 0 and day 599; filtered to that
    range it is unchanged, and the aggregation then has exactly one
    outcome, of 3 rows: the rows 199, 599 and 399 of the table, that is
    India dated day 199, UK dated day 599 and USA dated day 399. *)
Theorem synthesized_scenario (w : World)
    (Hfile : fs w !! PICKLE_FILE = None) (Hcache : cache w = None) :
  exists df w',
    load_data w = (Ok df, w') /\
    length df = 600%nat /\
    col_date df = map (fun i => day (Z.of_nat i)) (seq 0 600) /\
    col_location df
    = replicate 200 "India"%string ++ replicate 200 "USA"%string
      ++ replicate 200 "UK"%string /\
    series_min (col_date df) = Some (day 0) /\
    series_max (col_date df) = Some (day 599) /\
    df_filtered df (day 0) (day 599) = df /\
    exists r1 r2 r3,
      (df !! 199%nat = Some r1 /\ df !! 599%nat = Some r2 /\ df !! 399%nat = Some r3) /\
      (location r1 = "India"%string /\ date r1 = day 199) /\
      (location r2 = "UK"%string /\ date r2 = day 599) /\
      (location r3 = "USA"%string /\ date r3 = day 399) /\
      forall L, latest (df_filtered df (day 0) (day 599)) L <-> L = [r1; r2; r3].
Proof.
  exists (synthesized (np_random w)). eexists. split.
  { unfold load_data. rewrite Hcache, (load_data_body_no_file w Hfile). reflexivity. }
  rewrite synthesized_draws.
  generalize (fun i => 100 + entropy (np_random w) (cursor (np_random w) + i)%nat
                             mod (100000 - 100)).
  generalize (fun i => 1 + entropy (np_random w) (cursor (np_random w) + 600 + i)%nat
                           mod (2000 - 1)).
  intros deaths cases.
  destruct (draws_shape cases deaths) as (Hlen & Hdates & Hlocs).
  destruct (draws_range cases deaths) as (Hmin & Hmax & Hinc).
  repeat (split; [assumption|]).
  split; [apply draws_full_window|].
  do 3 eexists. split; [apply draws_rows|].
  repeat (split; [split; reflexivity|]).
  rewrite draws_full_window. intros L. split.
  - intros (S & HS & ->).
    rewrite (sort_values_increasing _ S Hinc HS). apply draws_groupby_last.
  - intros ->. rewrite <- draws_groupby_last. exists (table_of_draws cases deaths).
    split; [|reflexivity]. split; [reflexivity|]. now apply increasing_dates.
Qed.

(** A first run in an empty directory with a constant entropy stream. *)
Lemma synthesized_scenario_witness :
  let w := mkWorld ∅ (mkRandomState (fun _ => 4242) 0) None in
  fs w !! PICKLE_FILE = None /\ cache w = None /\
  exists df w', load_data w = (Ok df, w') /\ length df = 600%nat.
Proof.
  intros w.
  assert (Hfile : fs w !! PICKLE_FILE = None) by reflexivity.
  assert (Hcache : cache w = None) by reflexivity.
  split; [exact Hfile|]. split; [exact Hcache|].
  destruct (synthesized_scenario w Hfile Hcache) as (df & w' & Hload & Hlen & _).
  exists df, w'. split; [exact Hload | exact Hlen].
Defined.

(** ** CSV export *)

#[local] Arguments String.append !s1 s2 : simpl nomatch.

Lemma append_nil_r (s : string) : s +:+ EmptyString = s.
Proof. induction s as [|c s IH]; simpl; congruence. Qed.

Lemma append_assoc (s1 s2 s3 : string) : (s1 +:+ s2) +:+ s3 = s1 +:+ (s2 +:+ s3).
Proof. induction s1 as [|c s1 IH]; simpl; congruence. Qed.

Lemma snoc_char_append (acc : string) (c : ascii) (s : string) :
  snoc_char acc c +:+ s = acc +:+ String c s.
Proof. unfold snoc_char. now rewrite append_assoc. Qed.

(** A separator or a line feed ends the field in every state but the
    quoted one. *)
Lemma unjoin_delim (st : unjoin_state) (d : ascii) (fld : string) (rec : list string)
    (recs : list (list string)) (rest : string) :
  st <> InQuotes -> d = COMMA \/ d = LF ->
  csv_unjoin st fld rec recs (String d rest) = after_delim d fld rec recs rest.
Proof.
  intros Hst [-> | ->]; destruct st; try contradiction; reflexivity.
Qed.

Lemma not_special (q : bool) (c : ascii) :
  is_special q c = false ->
  (c =? COMMA)%char = false /\ (c =? QUOTE)%char = false /\ (c =? LF)%char = false.
Proof.
  unfold is_special. rewrite !orb_false_iff. tauto.
Qed.

(** An unquoted field is read character by character. *)
Lemma unjoin_plain (q : bool) (f acc : string) (rec : list string)
    (recs : list (list string)) (rest : string) :
  needs_quoting q f = false ->
  csv_unjoin InPlain acc rec recs (f +:+ rest)
  = csv_unjoin InPlain (acc +:+ f) rec recs rest.
Proof.
  revert acc. induction f as [|c f IH]; intros acc Hq; simpl.
  - now rewrite append_nil_r.
  - simpl in Hq. apply orb_false_iff in Hq as [Hc Hq].
    apply not_special in Hc as (Hcomma & _ & Hlf).
    rewrite Hcomma, Hlf, (IH _ Hq). now rewrite snoc_char_append.
Qed.

Lemma unjoin_plain_field (q : bool) (f : string) (d : ascii) (rec : list string)
    (recs : list (list string)) (rest : string) :
  needs_quoting q f = false -> d = COMMA \/ d = LF ->
  csv_unjoin AtFieldStart EmptyString rec recs (f +:+ String d rest)
  = after_delim d f rec recs rest.
Proof.
  intros Hq Hd. destruct f as [|c f].
  - simpl String.append. now apply unjoin_delim.
  - simpl in Hq. apply orb_false_iff in Hq as [Hc Hq].
    apply not_special in Hc as (Hcomma & Hquote & Hlf).
    simpl. rewrite Hcomma, Hlf, Hquote.
    rewrite (unjoin_plain q f _ _ _ _ Hq). now apply unjoin_delim.
Qed.

(** A quoted field is read up to its closing quote; a doubled quote
    stands for one quote. *)
Lemma unjoin_quoted (f acc : string) (rec : list string)
    (recs : list (list string)) (rest : string) :
  csv_unjoin InQuotes acc rec recs (double_quotes f +:+ String QUOTE rest)
  = csv_unjoin AfterQuote (acc +:+ f) rec recs rest.
Proof.
  revert acc. induction f as [|c f IH]; intros acc.
  - simpl. now rewrite append_nil_r.
  - simpl double_quotes. destruct (c =? QUOTE)%char eqn:Hc.
    + apply Ascii.eqb_eq in Hc. subst c. simpl.
      rewrite IH. now rewrite snoc_char_append.
    + simpl. rewrite Hc, IH. now rewrite snoc_char_append.
Qed.

Lemma unjoin_quoted_field (f : string) (d : ascii) (rec : list string)
    (recs : list (list string)) (rest : string) :
  d = COMMA \/ d = LF ->
  csv_unjoin AtFieldStart EmptyString rec recs
    (String QUOTE (double_quotes f +:+ String QUOTE EmptyString) +:+ String d rest)
  = after_delim d f rec recs rest.
Proof.
  intros Hd. simpl String.append. rewrite append_assoc. simpl String.append.
  change (csv_unjoin AtFieldStart EmptyString rec recs
            (String QUOTE (double_quotes f +:+ String QUOTE (String d rest))))
    with (csv_unjoin InQuotes EmptyString rec recs
            (double_quotes f +:+ String QUOTE (String d rest))).
  rewrite unjoin_quoted. simpl String.append. now apply unjoin_delim.
Qed.

(** Whatever the writer decided about quoting, the field comes back. *)
Lemma unjoin_field (q : bool) (f : string) (d : ascii) (rec : list string)
    (recs : list (list string)) (rest : string) :
  d = COMMA \/ d = LF ->
  csv_unjoin AtFieldStart EmptyString rec recs (csv_field q f +:+ String d rest)
  = after_delim d f rec recs rest.
Proof.
  intros Hd. unfold csv_field. destruct (needs_quoting q f) eqn:Hq.
  - now apply unjoin_quoted_field.
  - now apply (unjoin_plain_field q).
Qed.

Lemma unjoin_record (q : bool) (fields rec : list string)
    (recs : list (list string)) (rest : string) :
  fields <> [] ->
  csv_unjoin AtFieldStart EmptyString rec recs (csv_record q fields +:+ rest)
  = csv_unjoin AtFieldStart EmptyString [] (recs ++ [rec ++ fields]) rest.
Proof.
  unfold csv_record. revert rec.
  induction fields as [|f fields IH]; intros rec Hne; [contradiction|].
  destruct fields as [|f' fields].
  - simpl map. simpl csv_join. rewrite append_assoc. simpl String.append.
    rewrite unjoin_field by now right. reflexivity.
  - change (csv_join (map (csv_field q) (f :: f' :: fields)))
      with (csv_field q f +:+ String COMMA (csv_join (map (csv_field q) (f' :: fields)))).
    rewrite append_assoc. simpl String.append at 2.
    rewrite unjoin_field by now left.
    unfold after_delim. simpl Ascii.eqb.
    rewrite IH by discriminate. now rewrite <- app_assoc.
Qed.

Lemma unjoin_rows (q : bool) (df : Table) (recs : list (list string)) :
  csv_unjoin AtFieldStart EmptyString [] recs
    (foldr (fun r acc => csv_record q (row_cells r) +:+ acc) EmptyString df)
  = Some (recs ++ map row_cells df).
Proof.
  revert recs. induction df as [|r df IH]; intros recs; cbn [foldr map].
  - cbn [csv_unjoin]. now rewrite app_nil_r.
  - rewrite unjoin_record by discriminate. rewrite IH.
    now rewrite <- app_assoc.
Qed.

(** Undoing the joining gives the header and the cells of the rows. *)
Lemma unjoin_to_csv (q : bool) (df : Table) :
  csv_unjoin AtFieldStart EmptyString [] [] (to_csv q df)
  = Some (columns :: map row_cells df).
Proof.
  unfold to_csv. rewrite unjoin_record by discriminate. now rewrite unjoin_rows.
Qed.

(** *** Cells *)

Lemma char_digit_digit_char (n : Z) : char_digit (digit_char n) = Some (n mod 10).
Proof.
  unfold digit_char.
  assert (H : 0 <= n mod 10 < 10) by (apply Z.mod_pos_bound; lia).
  assert (Hk : n mod 10 = 0 \/ n mod 10 = 1 \/ n mod 10 = 2 \/ n mod 10 = 3
               \/ n mod 10 = 4 \/ n mod 10 = 5 \/ n mod 10 = 6 \/ n mod 10 = 7
               \/ n mod 10 = 8 \/ n mod 10 = 9) by lia.
  repeat destruct Hk as [Hk|Hk]; rewrite Hk; reflexivity.
Qed.

Lemma four_digits (y : Z) :
  0 <= y <= 9999 ->
  1000 * ((y / 1000) mod 10) + 100 * ((y / 100) mod 10) + 10 * ((y / 10) mod 10) + y mod 10 = y.
Proof. intros H. Z.to_euclidean_division_equations; lia. Qed.

Lemma two_digits (m : Z) :
  0 <= m <= 99 -> 10 * ((m / 10) mod 10) + m mod 10 = m.
Proof. intros H. Z.to_euclidean_division_equations; lia. Qed.

Lemma days_in_month_le (y m : Z) : days_in_month y m <= 31.
Proof.
  unfold days_in_month.
  destruct (m =? 2); [destruct (is_leap y); lia|].
  destruct ((m =? 4) || (m =? 6) || (m =? 9) || (m =? 11)); lia.
Qed.

Lemma is_leap_spec (y : Z) :
  is_leap y = true <-> (y mod 4 = 0 /\ y mod 100 <> 0) \/ y mod 400 = 0.
Proof.
  unfold is_leap.
  rewrite orb_true_iff, andb_true_iff, negb_true_iff, !Z.eqb_eq, Z.eqb_neq.
  reflexivity.
Qed.

Ltac euclid := Z.to_euclidean_division_equations; lia.

(** On the midnights of a [datetime64[ns]] column [civil_from_days]
    gives a date of the calendar with a four-digit year, and
    [days_from_civil] leads back to the day number. *)
Lemma civil_from_days_valid (z : Z) :
  valid_date z ->
  let '(y, m, d) := civil_from_days z in
  0 <= y <= 9999 /\ 1 <= m <= 12 /\ 1 <= d <= days_in_month y m /\
  days_from_civil y m d = z.
Proof.
  unfold valid_date, TIMESTAMP_MIN_DAY, TIMESTAMP_MAX_DAY. intros Hz.
  unfold civil_from_days, days_from_civil.
  set (z' := z + 719468).
  set (era := z' / 146097).
  set (doe := z' - era * 146097).
  assert (Hera : 4 <= era <= 5) by (subst era z'; euclid).
  assert (Hdoe : 0 <= doe < 146097) by (subst doe era; euclid).
  set (yoe := (doe - doe / 1460 + doe / 36524 - doe / 146096) / 365).
  assert (Hyoe : 0 <= yoe <= 399) by (subst yoe; euclid).
  set (doy := doe - (365 * yoe + yoe / 4 - yoe / 100)).
  assert (Hdoy : 0 <= doy <= 365) by (subst doy yoe; euclid).
  assert (Hleap : doy = 365 -> is_leap (yoe + era * 400 + 1) = true).
  { intros H365. apply is_leap_spec. revert H365. subst doy yoe. euclid. }
  set (mp := (5 * doy + 2) / 153).
  assert (Hmp : 0 <= mp <= 11) by (subst mp; euclid).
  set (d := doy - (153 * mp + 2) / 5 + 1).
  assert (Hd : 1 <= d) by (subst d mp; euclid).
  assert (Hera' : (yoe + era * 400) / 400 = era) by euclid.
  assert (Hmpd : 153 * mp <= 5 * doy + 2 < 153 * mp + 153) by (subst mp; euclid).
  destruct (Z.ltb_spec mp 10) as [Hlt|Hge].
  - rewrite (proj2 (Z.leb_gt (mp + 3) 2)) by lia.
    rewrite (proj2 (Z.ltb_lt 2 (mp + 3))) by lia.
    replace (mp + 3 - 3) with mp by lia. rewrite Hera'.
    replace (yoe + era * 400 - era * 400) with yoe by lia.
    split; [lia|]. split; [lia|]. split.
    + split; [exact Hd|].
      assert (Hk : mp = 0 \/ mp = 1 \/ mp = 2 \/ mp = 3 \/ mp = 4 \/ mp = 5 \/ mp = 6
                   \/ mp = 7 \/ mp = 8 \/ mp = 9) by lia.
      clearbody mp doy.
      repeat destruct Hk as [Hk|Hk]; subst mp;
        first [ change (days_in_month (yoe + era * 400) _) with 31
              | change (days_in_month (yoe + era * 400) _) with 30 ];
        subst d; euclid.
    + subst doy doe z'. lia.
  - rewrite (proj2 (Z.leb_le (mp - 9) 2)) by lia.
    rewrite (proj2 (Z.ltb_ge 2 (mp - 9))) by lia.
    replace (mp - 9 + 9) with mp by lia.
    replace (yoe + era * 400 + 1 - 1) with (yoe + era * 400) by lia.
    rewrite Hera'.
    replace (yoe + era * 400 - era * 400) with yoe by lia.
    split; [lia|]. split; [lia|]. split.
    + split; [exact Hd|].
      assert (Hk : mp = 10 \/ mp = 11) by lia.
      clearbody mp doy.
      destruct Hk as [Hk|Hk]; subst mp.
      * change (days_in_month (yoe + era * 400 + 1) _) with 31.
        subst d; euclid.
      * change (days_in_month (yoe + era * 400 + 1) _)
          with (if is_leap (yoe + era * 400 + 1) then 29 else 28).
        destruct (is_leap (yoe + era * 400 + 1)) eqn:Hl.
        -- subst d; euclid.
        -- assert (doy <> 365) by (intros H; apply Hleap in H; congruence).
           subst d; euclid.
    + subst doy doe z'. lia.
Qed.

(** The printed date reads back. *)
Lemma parse_format_valid_date (z : Z) :
  valid_date z -> parse_date (format_date z) = Some z.
Proof.
  intros Hz. apply civil_from_days_valid in Hz.
  unfold format_date. destruct (civil_from_days z) as [[y m] d].
  destruct Hz as (Hy & Hm & Hd & Hz).
  unfold parse_date. rewrite !char_digit_digit_char.
  pose proof (days_in_month_le y m) as Hdm.
  rewrite (four_digits y) by lia.
  rewrite (two_digits m) by lia. rewrite (two_digits d) by lia.
  rewrite (proj2 (Z.leb_le 1 m)), (proj2 (Z.leb_le m 12)),
    (proj2 (Z.leb_le 1 d)), (proj2 (Z.leb_le d _)) by lia.
  simpl. now rewrite Hz.
Qed.

Lemma parse_str_of_int (z : Z) : parse_int (str_of_int z) = Some z.
Proof.
  unfold parse_int, str_of_int.
  rewrite DecimalString.NilZero.isi.
  - simpl. now rewrite DecimalZ.of_to.
  - destruct z; simpl; try discriminate.
    intros [= H]. now apply DecimalPos.Unsigned.to_uint_nonnil in H.
  - destruct z; simpl; try discriminate.
    intros [= H]. now apply DecimalPos.Unsigned.to_uint_nonnil in H.
Qed.

Lemma parse_row_cells (r : Row) :
  valid_date (date r) -> parse_row (row_cells r) = Some r.
Proof.
  intros Hd. destruct r as [d l c t]. unfold parse_row, row_cells. simpl date in *.
  simpl location. simpl total_cases. simpl total_deaths.
  now rewrite (parse_format_valid_date d Hd), !parse_str_of_int.
Qed.

Lemma parse_rows_cells (df : Table) :
  List.Forall (fun r => valid_date (date r)) df ->
  parse_rows (map row_cells df) = Some df.
Proof.
  induction 1 as [|r df Hr Hdf IH]; [reflexivity|].
  change (parse_rows (map row_cells (r :: df)))
    with (match parse_row (row_cells r), parse_rows (map row_cells df) with
          | Some r', Some df' => Some (r' :: df')
          | _, _ => None
          end).
  now rewrite (parse_row_cells r Hr), IH.
Qed.

Lemma digit_char_plain (q : bool) (n : Z) : is_special q (digit_char n) = false.
Proof.
  unfold digit_char.
  assert (H : 0 <= n mod 10 < 10) by (apply Z.mod_pos_bound; lia).
  assert (Hk : n mod 10 = 0 \/ n mod 10 = 1 \/ n mod 10 = 2 \/ n mod 10 = 3
               \/ n mod 10 = 4 \/ n mod 10 = 5 \/ n mod 10 = 6 \/ n mod 10 = 7
               \/ n mod 10 = 8 \/ n mod 10 = 9) by lia.
  repeat destruct Hk as [Hk|Hk]; rewrite Hk; now destruct q.
Qed.

Lemma format_date_plain (q : bool) (z : Z) : needs_quoting q (format_date z) = false.
Proof.
  unfold format_date. destruct (civil_from_days z) as [[y m] d].
  cbn [needs_quoting]. rewrite !digit_char_plain. now destruct q.
Qed.

Lemma string_of_uint_plain (q : bool) (d : Decimal.uint) :
  needs_quoting q (DecimalString.NilEmpty.string_of_uint d) = false.
Proof. induction d; simpl; try reflexivity; rewrite IHd; now destruct q. Qed.

Lemma str_of_int_plain (q : bool) (n : Z) : needs_quoting q (str_of_int n) = false.
Proof.
  unfold str_of_int, DecimalString.NilZero.string_of_int, DecimalString.NilZero.string_of_uint.
  destruct (Z.to_int n) as [d|d]; destruct d; simpl;
    rewrite ?string_of_uint_plain; now destruct q.
Qed.

(** *** The reader on what the writer wrote *)

Lemma process_app (r : reader) (s1 s2 : string) :
  process r (s1 +:+ s2) = process (process r s1) s2.
Proof. revert r. induction s1 as [|c s1 IH]; intros r; simpl; [reflexivity|apply IH]. Qed.

Lemma not_cr (c : ascii) (s : string) :
  contains_cr (String c s) = false -> (c =? CR)%char = false /\ contains_cr s = false.
Proof. simpl. now rewrite orb_false_iff. Qed.

(** An unquoted cell without a carriage return is read character by
    character. *)
Lemma process_plain (q : bool) (f : string) (st : reader_state) (acc : string)
    (rec : list string) (recs : list (list string)) :
  needs_quoting q f = false -> contains_cr f = false ->
  st = StartRecord \/ st = StartField \/ st = InField ->
  process (mkReader st acc rec recs) f
  = mkReader (match f with EmptyString => st | _ => InField end) (acc +:+ f) rec recs.
Proof.
  revert st acc. induction f as [|c f IH]; intros st acc Hq Hcr Hst.
  - simpl. now rewrite append_nil_r.
  - simpl in Hq. apply orb_false_iff in Hq as [Hc Hq].
    apply not_special in Hc as (Hcomma & Hquote & Hlf).
    apply not_cr in Hcr as [Hc Hcr].
    assert (Hstep : process_char (mkReader st acc rec recs) c
                    = mkReader InField (snoc_char acc c) rec recs).
    { unfold process_char, record_start_char, unquoted_char, is_newline, add_char.
      destruct Hst as [-> | [-> | ->]]; simpl; now rewrite ?Hcomma, ?Hlf, ?Hc, ?Hquote. }
    cbn [process]. rewrite Hstep, (IH InField _ Hq Hcr) by auto.
    rewrite snoc_char_append. now destruct f.
Qed.

(** A quoted cell is read up to its closing quote; a doubled quote
    stands for one quote, and line breaks are characters of the cell. *)
Lemma process_quoted (f acc : string) (rec : list string) (recs : list (list string)) :
  process (mkReader InQuoted acc rec recs) (double_quotes f +:+ String QUOTE EmptyString)
  = mkReader QuoteInQuoted (acc +:+ f) rec recs.
Proof.
  revert acc. induction f as [|c f IH]; intros acc.
  - simpl. now rewrite append_nil_r.
  - simpl double_quotes. destruct (c =? QUOTE)%char eqn:Hc.
    + apply Ascii.eqb_eq in Hc. subst c. simpl.
      change (process_char (process_char (mkReader InQuoted acc rec recs) QUOTE) QUOTE)
        with (mkReader InQuoted (snoc_char acc QUOTE) rec recs).
      rewrite IH. now rewrite snoc_char_append.
    + simpl.
      assert (Hstep : process_char (mkReader InQuoted acc rec recs) c
                      = mkReader InQuoted (snoc_char acc c) rec recs).
      { unfold process_char. simpl. now rewrite Hc. }
      rewrite Hstep, IH. now rewrite snoc_char_append.
Qed.

(** The reader after the cell [f] as the writer wrote it, in front of
    the separator or line feed that follows. *)
Lemma process_field (q : bool) (f : string) (st : reader_state)
    (rec : list string) (recs : list (list string)) :
  cr_safe q f = true -> st = StartRecord \/ st = StartField ->
  exists st',
    process (mkReader st EmptyString rec recs) (csv_field q f)
    = mkReader st' f rec recs /\
    (st' = st \/ st' = InField \/ st' = QuoteInQuoted).
Proof.
  intros Hsafe Hst. unfold csv_field, cr_safe in *.
  destruct (needs_quoting q f) eqn:Hq.
  - exists QuoteInQuoted. split; [|auto].
    change (String QUOTE (double_quotes f +:+ String QUOTE EmptyString))
      with (String QUOTE EmptyString +:+ (double_quotes f +:+ String QUOTE EmptyString)).
    rewrite process_app.
    assert (H1 : process (mkReader st EmptyString rec recs) (String QUOTE EmptyString)
                 = mkReader InQuoted EmptyString rec recs).
    { destruct Hst as [-> | ->]; reflexivity. }
    rewrite H1. apply process_quoted.
  - simpl in Hsafe. apply negb_true_iff in Hsafe.
    eexists. split.
    + apply (process_plain q); auto. destruct Hst; auto.
    + destruct f; auto.
Qed.

Lemma process_field_comma (q : bool) (f : string) (st : reader_state)
    (rec : list string) (recs : list (list string)) (rest : string) :
  cr_safe q f = true -> st = StartRecord \/ st = StartField ->
  process (mkReader st EmptyString rec recs) (csv_field q f +:+ String COMMA rest)
  = process (mkReader StartField EmptyString (rec ++ [f]) recs) rest.
Proof.
  intros Hsafe Hst. rewrite process_app.
  destruct (process_field q f st rec recs Hsafe Hst) as (st' & -> & Hst').
  cbn [process]. f_equal.
  destruct Hst' as [-> | [-> | ->]]; [destruct Hst as [-> | ->]| |]; reflexivity.
Qed.

Lemma process_field_lf (q : bool) (f : string)
    (rec : list string) (recs : list (list string)) (rest : string) :
  cr_safe q f = true ->
  process (mkReader StartField EmptyString rec recs) (csv_field q f +:+ String LF rest)
  = process (mkReader StartRecord EmptyString [] (recs ++ [rec ++ [f]])) rest.
Proof.
  intros Hsafe. rewrite process_app.
  destruct (process_field q f StartField rec recs Hsafe (or_intror eq_refl))
    as (st' & -> & Hst').
  cbn [process]. f_equal.
  destruct Hst' as [-> | [-> | ->]]; reflexivity.
Qed.

Lemma process_join (q : bool) (fields rec : list string)
    (recs : list (list string)) (rest : string) :
  fields <> [] -> List.Forall (fun f => cr_safe q f = true) fields ->
  process (mkReader StartField EmptyString rec recs)
    (csv_join (map (csv_field q) fields) +:+ rest)
  = process (mkReader StartRecord EmptyString [] (recs ++ [rec ++ fields])) rest.
Proof.
  revert rec. induction fields as [|f fields IH]; intros rec Hne Hsafe; [contradiction|].
  inversion Hsafe as [|? ? Hf Hfs]; subst.
  destruct fields as [|f' fields].
  - simpl map. simpl csv_join. rewrite append_assoc. simpl String.append.
    now apply process_field_lf.
  - change (csv_join (map (csv_field q) (f :: f' :: fields)))
      with (csv_field q f +:+ String COMMA (csv_join (map (csv_field q) (f' :: fields)))).
    rewrite append_assoc. simpl String.append at 2.
    rewrite process_field_comma by auto.
    rewrite IH by (auto; discriminate). now rewrite <- app_assoc.
Qed.

(** A record of at least two cells. *)
Lemma process_record (q : bool) (f : string) (fields : list string)
    (recs : list (list string)) (rest : string) :
  fields <> [] -> List.Forall (fun f => cr_safe q f = true) (f :: fields) ->
  process (mkReader StartRecord EmptyString [] recs) (csv_record q (f :: fields) +:+ rest)
  = process (mkReader StartRecord EmptyString [] (recs ++ [f :: fields])) rest.
Proof.
  intros Hne Hsafe. inversion Hsafe as [|? ? Hf Hfs]; subst.
  unfold csv_record. destruct fields as [|f' fields]; [contradiction|].
  change (csv_join (map (csv_field q) (f :: f' :: fields)))
    with (csv_field q f +:+ String COMMA (csv_join (map (csv_field q) (f' :: fields)))).
  set (J := csv_join (map (csv_field q) (f' :: fields))).
  rewrite append_assoc.
  change (String COMMA J +:+ rest) with (String COMMA (J +:+ rest)).
  rewrite process_field_comma by auto. subst J.
  now rewrite process_join.
Qed.

(** A cell the writer never quotes has no carriage return. *)
Lemma plain_cr_safe (q : bool) (s : string) :
  needs_quoting true s = false -> cr_safe q s = true.
Proof.
  intros H. unfold cr_safe. apply orb_true_iff. right. apply negb_true_iff.
  induction s as [|c s IH]; [reflexivity|].
  simpl in H. apply orb_false_iff in H as [Hc H]. simpl. rewrite (IH H).
  unfold is_special in Hc. simpl in Hc. rewrite !orb_false_iff in Hc.
  now destruct Hc as [_ ->].
Qed.

Lemma row_cells_safe (q : bool) (r : Row) :
  cr_safe q (location r) = true ->
  List.Forall (fun f => cr_safe q f = true) (row_cells r).
Proof.
  intros Hl. unfold row_cells. repeat constructor; try exact Hl;
    apply plain_cr_safe; auto using format_date_plain, str_of_int_plain.
Qed.

Lemma process_rows (q : bool) (df : Table) (recs : list (list string)) :
  List.Forall (fun r => cr_safe q (location r) = true) df ->
  process (mkReader StartRecord EmptyString [] recs)
    (foldr (fun r acc => csv_record q (row_cells r) +:+ acc) EmptyString df)
  = mkReader StartRecord EmptyString [] (recs ++ map row_cells df).
Proof.
  revert recs. induction df as [|r df IH]; intros recs Hsafe; cbn [foldr map].
  - cbn [process]. now rewrite app_nil_r.
  - inversion Hsafe as [|? ? Hr Hdf]; subst.
    unfold row_cells at 1.
    rewrite process_record by (try discriminate; now apply row_cells_safe).
    rewrite IH by assumption. now rewrite <- app_assoc.
Qed.

(** The reader splits the payload into the header and the cells of the
    rows, when no carriage return reaches it outside quotes. *)
Lemma read_to_csv (q : bool) (df : Table) :
  List.Forall (fun r => cr_safe q (location r) = true) df ->
  csv_read (to_csv q df) = columns :: map row_cells df.
Proof.
  intros Hsafe. unfold csv_read, to_csv, columns.
  rewrite process_record; [|discriminate|now destruct q; repeat constructor].
  now rewrite process_rows.
Qed.

Example format_date_first_day : format_date (day 0) = "2020-01-01"%string.
Proof. reflexivity. Qed.

Example format_date_last_day : format_date (day 599) = "2021-08-22"%string.
Proof. reflexivity. Qed.

Example csv_field_separator :
  csv_field false "Korea, South"
  = String QUOTE ("Korea, South" +:+ String QUOTE EmptyString).
Proof. reflexivity. Qed.

Example to_csv_one_row :
  to_csv false [mkRow (day 0) "India" 500 3]
  = "date,location,total_cases,total_deaths"
    +:+ String LF ("2020-01-01,India,500,3" +:+ String LF EmptyString).
Proof. reflexivity. Qed.

(** C6 (as stated it fails): a location with a carriage return and
    nothing else that makes the writer quote it.  The writer that quotes
    for separator, quote and line feed only prints the carriage return
    bare, the reader ends the record there, and the payload does not
    read back as the table. *)
Lemma csv_bare_cr_splits_record :
  let df := [mkRow 18262 (String "a" (String CR "b")) 500 3] in
  List.Forall (fun r => valid_date (date r)) df /\
  to_csv false df
  = "date,location,total_cases,total_deaths"
    +:+ String LF ("2020-01-01,a" +:+ String CR ("b,500,3" +:+ String LF EmptyString)) /\
  csv_read (to_csv false df)
  = [columns; ["2020-01-01"; "a"]; ["b"; "500"; "3"]]%string /\
  read_csv (to_csv_bytes false df) <> Some df.
Proof.
  intros df. split.
  - repeat constructor; simpl; unfold TIMESTAMP_MIN_DAY, TIMESTAMP_MAX_DAY; lia.
  - split; [vm_compute; reflexivity|]. split; [vm_compute; reflexivity|].
    vm_compute. discriminate.
Qed.

(** C6 (amended): the payload starts with the header line
    [date,location,total_cases,total_deaths] (no index column), and for
    every table whose dates are midnights a [datetime64[ns]] column can
    hold and whose locations are safe from a bare carriage return (they
    hold none, or the writer quotes them), reading the payload back as
    CSV gives the table itself: the same columns, the same values, the
    rows in the same order.  With a writer that quotes carriage returns
    every location is safe. *)
Theorem csv_round_trip (quote_cr : bool) (df : Table)
    (Hdates : List.Forall (fun r => valid_date (date r)) df)
    (Hcr : List.Forall (fun r => cr_safe quote_cr (location r) = true) df) :
  (exists body,
     to_csv quote_cr df
     = "date,location,total_cases,total_deaths" +:+ String LF body) /\
  read_csv (to_csv_bytes quote_cr df) = Some df /\
  (forall l, cr_safe true l = true).
Proof.
  split; [|split].
  - eexists. unfold to_csv. destruct quote_cr; reflexivity.
  - unfold read_csv, to_csv_bytes.
    rewrite string_of_list_byte_of_string, (read_to_csv _ _ Hcr).
    rewrite decide_True by reflexivity.
    now apply parse_rows_cells.
  - intros l. unfold cr_safe. induction l as [|c l IH]; [reflexivity|].
    simpl. unfold is_special. simpl.
    destruct (c =? CR)%char; simpl; [now rewrite !orb_true_r|].
    rewrite !orb_false_r.
    destruct ((c =? COMMA)%char || (c =? QUOTE)%char || (c =? LF)%char); [reflexivity|].
    exact IH.
Qed.

(** A table with a separator, a quote and line breaks in its locations:
    carriage returns next to a line feed for the writer that quotes for
    line feeds only, a bare carriage return for the writer that quotes
    it. *)
Lemma csv_round_trip_witness :
  let df := [mkRow 18262 "India" 500 3;
             mkRow 18263 "Korea, South" 0 0;
             mkRow (-106751) (String QUOTE (String CR (String LF "x"))) (-7) 12] in
  let df' := mkRow 18264 (String "a" (String CR "b")) 500 3 :: df in
  List.Forall (fun r => valid_date (date r)) df /\
  List.Forall (fun r => cr_safe false (location r) = true) df /\
  read_csv (to_csv_bytes false df) = Some df /\
  read_csv (to_csv_bytes true df') = Some df'.
Proof.
  intros df df'.
  assert (Hdates : List.Forall (fun r => valid_date (date r)) df).
  { repeat constructor; simpl; unfold TIMESTAMP_MIN_DAY, TIMESTAMP_MAX_DAY; lia. }
  assert (Hdates' : List.Forall (fun r => valid_date (date r)) df').
  { constructor; [|exact Hdates].
    unfold valid_date, TIMESTAMP_MIN_DAY, TIMESTAMP_MAX_DAY; simpl; lia. }
  assert (Hcr : List.Forall (fun r => cr_safe false (location r) = true) df).
  { repeat (constructor; [vm_compute; reflexivity|]). constructor. }
  assert (Hcr' : List.Forall (fun r => cr_safe true (location r) = true) df').
  { repeat (constructor; [vm_compute; reflexivity|]). constructor. }
  split; [exact Hdates|]. split; [exact Hcr|].
  split; [exact (proj1 (proj2 (csv_round_trip false df Hdates Hcr)))
         |exact (proj1 (proj2 (csv_round_trip true df' Hdates' Hcr')))].
Defined.

(** * Further properties of the script *)

(** ** Sidebar defaults and the date window *)

Lemma getitem_mask_map (f : Row -> bool) (df : Table) :
  getitem_mask df (map f df) = List.filter f df.
Proof.
  induction df as [|r df IH]; simpl; [reflexivity|].
  destruct (f r); now rewrite IH.
Qed.

Lemma filter_all (f : Row -> bool) (df : Table) :
  List.filter f df = df <-> forall r, In r df -> f r = true.
Proof.
  induction df as [|r df IH]; simpl.
  - split; [intros _ r [] | reflexivity].
  - destruct (f r) eqn:Hr.
    + split.
      * intros [= H] x [<-|Hx]; [exact Hr|]. now apply IH.
      * intros H. f_equal. apply IH. intros x Hx. apply H. now right.
    + split.
      * intros H. pose proof (sublist_length _ _ (filter_is_sublist f df)) as Hlen.
        rewrite H in Hlen. simpl in Hlen. lia.
      * intros H. specialize (H r (or_introl eq_refl)). congruence.
Qed.

Lemma foldl_min_spec (s : list Z) (d : Z) :
  (foldl Z.min d s = d \/ In (foldl Z.min d s) s) /\
  foldl Z.min d s <= d /\ forall x, In x s -> foldl Z.min d s <= x.
Proof.
  revert d. induction s as [|y s IH]; intros d; simpl.
  - split; [now left|]. split; [lia|]. intros x [].
  - destruct (IH (Z.min d y)) as (Hin & Hle & Hall). split; [|split].
    + destruct Hin as [Hin|Hin]; [|now right; right].
      rewrite Hin. destruct (Z.min_spec d y) as [[_ ->]|[_ ->]]; [now left|now right; left].
    + lia.
    + intros x [<-|Hx]; [lia|now apply Hall].
Qed.

Lemma foldl_max_spec (s : list Z) (d : Z) :
  (foldl Z.max d s = d \/ In (foldl Z.max d s) s) /\
  d <= foldl Z.max d s /\ forall x, In x s -> x <= foldl Z.max d s.
Proof.
  revert d. induction s as [|y s IH]; intros d; simpl.
  - split; [now left|]. split; [lia|]. intros x [].
  - destruct (IH (Z.max d y)) as (Hin & Hle & Hall). split; [|split].
    + destruct Hin as [Hin|Hin]; [|now right; right].
      rewrite Hin. destruct (Z.max_spec d y) as [[_ ->]|[_ ->]]; [now right; left|now left].
    + lia.
    + intros x [<-|Hx]; [lia|now apply Hall].
Qed.

(** [Series.min()] is an entry of the series below all entries. *)
Lemma series_min_spec (s : list Z) (m : Z) :
  series_min s = Some m -> In m s /\ forall x, In x s -> m <= x.
Proof.
  destruct s as [|d s]; [discriminate|]. intros [= <-].
  destruct (foldl_min_spec s d) as (Hin & Hle & Hall). split.
  - destruct Hin as [->|Hin]; [now left|now right].
  - intros x [<-|Hx]; [exact Hle|now apply Hall].
Qed.

(** [Series.max()] is an entry of the series above all entries. *)
Lemma series_max_spec (s : list Z) (m : Z) :
  series_max s = Some m -> In m s /\ forall x, In x s -> x <= m.
Proof.
  destruct s as [|d s]; [discriminate|]. intros [= <-].
  destruct (foldl_max_spec s d) as (Hin & Hle & Hall). split.
  - destruct Hin as [->|Hin]; [now left|now right].
  - intros x [<-|Hx]; [exact Hle|now apply Hall].
Qed.

(** X1: with the default date range of the sidebar, the smallest and the
    largest date of the table, the filter keeps the whole table; and a
    window keeps the whole table exactly when it contains that default
    range. *)
Theorem default_window_keeps_all (df : Table) (lo hi : Z)
    (Hlo : min_date df = Some lo) (Hhi : max_date df = Some hi) :
  df_filtered df lo hi = df /\
  forall a b, df_filtered df a b = df <-> a <= lo /\ hi <= b.
Proof.
  apply series_min_spec in Hlo as [Hlo_in Hlo].
  apply series_max_spec in Hhi as [Hhi_in Hhi].
  assert (Hiff : forall a b, df_filtered df a b = df <-> a <= lo /\ hi <= b).
  { intros a b. rewrite getitem_mask_window, filter_all. split.
    - intros H. unfold col_date in *.
      apply in_map_iff in Hlo_in as (r1 & <- & Hr1).
      apply in_map_iff in Hhi_in as (r2 & <- & Hr2).
      apply H, in_window_spec in Hr1. apply H, in_window_spec in Hr2. lia.
    - intros [Ha Hb] r Hr. apply in_window_spec.
      assert (Hd : In (date r) (col_date df)) by now apply in_map.
      specialize (Hlo _ Hd). specialize (Hhi _ Hd). lia. }
  split; [|exact Hiff]. apply Hiff. lia.
Qed.

(** Three rows between day 4 and day 9. *)
Lemma default_window_keeps_all_witness :
  let df := [mkRow 7 "UK" 1 0; mkRow 4 "USA" 3 0; mkRow 9 "UK" 2 0] in
  min_date df = Some 4 /\ max_date df = Some 9 /\ df_filtered df 4 9 = df.
Proof.
  intros df.
  assert (Hlo : min_date df = Some 4) by reflexivity.
  assert (Hhi : max_date df = Some 9) by reflexivity.
  split; [exact Hlo|]. split; [exact Hhi|].
  exact (proj1 (default_window_keeps_all df 4 9 Hlo Hhi)).
Defined.

Lemma filter_filter (f g : Row -> bool) (df : Table) :
  List.filter f (List.filter g df) = List.filter (fun r => g r && f r) df.
Proof.
  induction df as [|r df IH]; simpl; [reflexivity|].
  destruct (g r); simpl; [destruct (f r)|]; now rewrite IH.
Qed.

(** X2: filtering a filtered table gives the rows of the intersection of
    the two windows; in particular filtering again with the same window
    changes nothing. *)
Theorem df_filtered_compose (df : Table) (a b c d : Z) :
  df_filtered (df_filtered df a b) c d = df_filtered df (Z.max a c) (Z.min b d) /\
  df_filtered (df_filtered df a b) a b = df_filtered df a b.
Proof.
  assert (H : forall c d,
    df_filtered (df_filtered df a b) c d = df_filtered df (Z.max a c) (Z.min b d)).
  { intros c' d'. rewrite !getitem_mask_window, filter_filter.
    apply List.filter_ext. intros r. unfold in_window.
    destruct (Z.leb_spec a (date r)), (Z.leb_spec (date r) b),
      (Z.leb_spec c' (date r)), (Z.leb_spec (date r) d'),
      (Z.leb_spec (Z.max a c') (date r)), (Z.leb_spec (date r) (Z.min b d'));
      simpl; try reflexivity; lia. }
  split; [apply H|]. rewrite H. now rewrite Z.max_id, Z.min_id.
Qed.

(** X3: a date range whose start lies after its end selects no row: the
    aggregated table is empty, the country select box has no option and
    returns no country whatever is picked, and the timeline is empty. *)
Theorem df_filtered_reversed (df : Table) (a b : Z) (Hrev : b < a) :
  df_filtered df a b = [] /\
  (forall L, latest (df_filtered df a b) L <-> L = []) /\
  countries (df_filtered df a b) = [] /\
  (forall choice, selectbox (countries (df_filtered df a b)) choice = None) /\
  (forall choice,
     ts (df_filtered df a b) (selectbox (countries (df_filtered df a b)) choice) = []).
Proof.
  assert (Hnil : df_filtered df a b = []).
  { rewrite getitem_mask_window. induction df as [|r df IH]; [reflexivity|].
    simpl. assert (Hr : in_window a b r = false).
    { apply not_true_is_false. rewrite in_window_spec. lia. }
    now rewrite Hr. }
  rewrite Hnil. split; [reflexivity|]. split; [apply latest_nil|].
  split; [reflexivity|]. split; intros choice; reflexivity.
Qed.

(** End before start. *)
Lemma df_filtered_reversed_witness :
  let df := [mkRow 10 "UK" 1 0; mkRow 11 "USA" 3 0] in
  9 < 12 /\ df_filtered df 12 9 = [] /\
  selectbox (countries (df_filtered df 12 9)) 1 = None.
Proof.
  intros df. split; [lia|].
  pose proof (df_filtered_reversed df 12 9 ltac:(lia)) as (H1 & _ & _ & H4 & _).
  split; [exact H1|exact (H4 1%nat)].
Defined.

(** ** Countries, timeline and ranking *)

Lemma latest_row_in (dff L : Table) (r : Row) :
  latest dff L -> In r L ->
  In r dff /\ forall x, In x dff -> location x = location r -> date x <= date r.
Proof.
  intros (S & [Hp Hs] & ->) Hr. apply groupby_last_elem in Hr.
  destruct (last_of_Some _ _ _ Hr) as [Hin _]. split.
  - eapply Permutation_in; [symmetry; exact Hp|exact Hin].
  - intros x Hx Hl. eapply last_of_sorted; try eassumption.
    eapply Permutation_in; [exact Hp|exact Hx].
Qed.

Lemma latest_locations (dff L : Table) :
  latest dff L -> col_location L = countries dff.
Proof.
  intros (S & [Hp _] & ->). rewrite groupby_last_locations. unfold countries.
  apply sort_keys_unique_perm. symmetry. now apply Permutation_map.
Qed.

Lemma countries_elem (dff : Table) (c : string) :
  In c (countries dff) <-> In c (col_location dff).
Proof.
  unfold countries. now rewrite <- !list_elem_of_In, sort_keys_perm, unique_elem.
Qed.

Lemma countries_NoDup (dff : Table) : NoDup (countries dff).
Proof. unfold countries. rewrite sort_keys_perm. apply unique_NoDup. Qed.

Lemma latest_has_location (dff L : Table) (l : string) :
  latest dff L -> In l (col_location dff) -> exists r, In r L /\ location r = l.
Proof.
  intros HL Hl. apply countries_elem in Hl. rewrite <- (latest_locations dff L HL) in Hl.
  unfold col_location in Hl. apply in_map_iff in Hl as (r & Hr & Hin). eauto.
Qed.

Lemma filter_all_strings (f : string -> bool) (ks : list string) :
  (forall k, In k ks -> f k = true) -> List.filter f ks = ks.
Proof.
  induction ks as [|k ks IH]; intros H; simpl; [reflexivity|].
  rewrite (H k) by now left. f_equal. apply IH. intros k' Hk'. apply H. now right.
Qed.

Lemma unique_NoDup_id (ks : list string) : NoDup ks -> unique ks = ks.
Proof.
  induction 1 as [|k ks Hk Hnd IH]; simpl; [reflexivity|].
  rewrite IH. f_equal. apply filter_all_strings.
  intros k' Hk'. apply negb_true_iff, String.eqb_neq. intros ->.
  now apply Hk, list_elem_of_In.
Qed.

Lemma unique_length_le (ks : list string) : (length (unique ks) <= length ks)%nat.
Proof.
  induction ks as [|k ks IH]; simpl; [lia|].
  pose proof (List.filter_length_le (fun k' => negb (k' =? k)%string) (unique ks)). lia.
Qed.

(** X4: the options of the country select box are the locations of the
    aggregated table, in the same order; the Countries metric is the
    number of aggregated rows, which is the number of options and at most
    the Rows metric; and the options are the locations of the filtered
    table, each once, in ascending order. *)
Theorem countries_latest (dff L : Table) (HL : latest dff L) :
  col_location L = countries dff /\
  nunique (col_location L) = length L /\
  length L = length (countries dff) /\
  (length L <= len dff)%nat /\
  StronglySorted string_lt (countries dff) /\
  forall c, In c (countries dff) <-> In c (col_location dff).
Proof.
  pose proof (latest_locations dff L HL) as Hloc.
  assert (Hlen : length L = length (countries dff)).
  { rewrite <- Hloc. unfold col_location. now rewrite length_map. }
  split; [exact Hloc|]. split; [|split; [exact Hlen|split; [|split]]].
  - unfold nunique. rewrite Hloc, (unique_NoDup_id _ (countries_NoDup dff)).
    now rewrite Hlen.
  - rewrite Hlen. unfold countries, len.
    rewrite (Permutation_length (sort_keys_perm _)).
    etransitivity; [apply unique_length_le|].
    unfold col_location. now rewrite length_map.
  - apply sort_keys_sorted, unique_NoDup.
  - apply countries_elem.
Qed.

(** Two countries in three rows. *)
Lemma countries_latest_witness :
  let dff := [mkRow 5 "USA" 10 1; mkRow 7 "India" 20 2; mkRow 6 "USA" 30 3] in
  latest dff (latest_stable dff) /\
  col_location (latest_stable dff) = countries dff /\
  countries dff = ["India"; "USA"].
Proof.
  intros dff.
  assert (HL : latest dff (latest_stable dff)) by apply latest_total.
  split; [exact HL|]. split; [|reflexivity].
  exact (proj1 (countries_latest dff _ HL)).
Defined.

Lemma ts_filter (dff : Table) (c : string) :
  ts dff (Some c) = List.filter (fun r => (location r =? c)%string) dff.
Proof.
  unfold ts, series_eq, col_location. rewrite map_map. apply getitem_mask_map.
Qed.

Lemma ts_none (dff : Table) : ts dff None = [].
Proof.
  unfold ts, series_eq, col_location. rewrite map_map, getitem_mask_map.
  induction dff as [|r dff IH]; [reflexivity|exact IH].
Qed.

Lemma ts_nonempty (dff : Table) (c : string) :
  In c (col_location dff) <-> ts dff (Some c) <> [].
Proof.
  rewrite ts_filter. unfold col_location. rewrite in_map_iff. split.
  - intros (r & Hl & Hr) Hnil.
    assert (Hin : In r (List.filter (fun r => (location r =? c)%string) dff)).
    { apply filter_In. split; [exact Hr|]. now apply String.eqb_eq. }
    rewrite Hnil in Hin. destruct Hin.
  - intros Hne.
    destruct (List.filter (fun r => (location r =? c)%string) dff) as [|r F] eqn:HF;
      [contradiction|].
    assert (Hin : In r (List.filter (fun r => (location r =? c)%string) dff))
      by (rewrite HF; now left).
    apply filter_In in Hin as [Hr Hl]. apply String.eqb_eq in Hl. eauto.
Qed.

Lemma concat_nil_groups (ks : list string) :
  concat (map (fun _ : string => @nil Row) ks) = [].
Proof. induction ks as [|k ks IH]; [reflexivity|exact IH]. Qed.

(** Putting a row in front of the group of its location. *)
Lemma concat_insert_group (F : string -> Table) (l : string) (r : Row) (ks : list string) :
  NoDup ks -> In l ks ->
  concat (map (fun k => if (l =? k)%string then r :: F k else F k) ks)
  ≡ₚ r :: concat (map F ks).
Proof.
  induction 1 as [|k ks Hk Hnd IH]; intros Hl; [destruct Hl|].
  simpl. destruct (String.eqb_spec l k) as [->|Hne].
  - replace (map (fun k0 => if (k =? k0)%string then r :: F k0 else F k0) ks)
      with (map F ks); [reflexivity|].
    apply map_ext_in. intros k' Hk'.
    destruct (String.eqb_spec k k') as [->|]; [|reflexivity].
    now apply list_elem_of_In in Hk'.
  - destruct Hl as [->|Hl]; [contradiction|].
    rewrite (IH Hl). symmetry. apply Permutation_middle.
Qed.

Lemma concat_groups (ks : list string) (df : Table) :
  NoDup ks -> (forall r, In r df -> In (location r) ks) ->
  concat (map (fun k => List.filter (fun r => (location r =? k)%string) df) ks) ≡ₚ df.
Proof.
  intros Hnd. induction df as [|r df IH]; intros Hall.
  - simpl. now rewrite concat_nil_groups.
  - simpl List.filter.
    rewrite (concat_insert_group
               (fun k => List.filter (fun r => (location r =? k)%string) df)
               (location r) r ks Hnd) by (apply Hall; now left).
    constructor. apply IH. intros x Hx. apply Hall. now right.
Qed.

(** X5: the timelines of the listed countries split the filtered table:
    put one after the other they hold its rows, each row once; a
    timeline is empty exactly for a country that is not listed, and every
    timeline is a subsequence of the filtered table. *)
Theorem timeline_partition (dff : Table) :
  concat (map (fun c => ts dff (Some c)) (countries dff)) ≡ₚ dff /\
  (forall c, In c (countries dff) <-> ts dff (Some c) <> []) /\
  (forall c, sublist (ts dff c) dff).
Proof.
  split; [|split].
  - rewrite (map_ext _ _ (ts_filter dff)).
    apply concat_groups; [apply countries_NoDup|].
    intros r Hr. apply countries_elem. unfold col_location. now apply in_map.
  - intros c. rewrite countries_elem. apply ts_nonempty.
  - intros [c|]; [rewrite ts_filter; apply filter_is_sublist|].
    rewrite ts_none. apply sublist_nil_l.
Qed.

Lemma series_max_intro (s : list Z) (m : Z) :
  In m s -> (forall x, In x s -> x <= m) -> series_max s = Some m.
Proof.
  intros Hin Hmax. destruct (series_max s) as [m'|] eqn:Hs.
  - apply series_max_spec in Hs as [Hin' Hmax'].
    specialize (Hmax _ Hin'). specialize (Hmax' _ Hin). f_equal. lia.
  - destruct s; [destruct Hin|discriminate].
Qed.

(** X6: the row the aggregation keeps for a country is a point of that
    country's timeline, and it carries the largest date of the timeline. *)
Theorem timeline_latest (dff L : Table) (r : Row)
    (HL : latest dff L) (Hr : In r L) :
  In r (ts dff (Some (location r))) /\
  max_date (ts dff (Some (location r))) = Some (date r).
Proof.
  destruct (latest_row_in dff L r HL Hr) as [Hin Hmax].
  assert (Hts : In r (ts dff (Some (location r)))).
  { rewrite ts_filter. apply filter_In. split; [exact Hin|]. apply String.eqb_refl. }
  split; [exact Hts|]. unfold max_date. apply series_max_intro.
  - unfold col_date. now apply in_map.
  - intros d Hd. unfold col_date in Hd. apply in_map_iff in Hd as (x & <- & Hx).
    rewrite ts_filter in Hx. apply filter_In in Hx as [Hx Hl].
    apply String.eqb_eq in Hl. now apply Hmax.
Qed.

(** Two dates of USA. *)
Lemma timeline_latest_witness :
  let dff := [mkRow 5 "USA" 10 1; mkRow 7 "India" 20 2; mkRow 6 "USA" 30 3] in
  latest dff (latest_stable dff) /\ In (mkRow 6 "USA" 30 3) (latest_stable dff) /\
  max_date (ts dff (Some "USA")) = Some 6.
Proof.
  intros dff.
  assert (HL : latest dff (latest_stable dff)) by apply latest_total.
  assert (Hr : In (mkRow 6 "USA" 30 3) (latest_stable dff)) by (right; now left).
  split; [exact HL|]. split; [exact Hr|].
  exact (proj2 (timeline_latest dff _ _ HL Hr)).
Defined.

Lemma countries_nil (dff : Table) : countries dff = [] <-> dff = [].
Proof.
  split; [|now intros ->].
  intros H. destruct dff as [|r dff]; [reflexivity|].
  assert (Hin : In (location r) (countries (r :: dff))) by (apply countries_elem; now left).
  rewrite H in Hin. destruct Hin.
Qed.

(** X7: the select box returns no country exactly when the filtered
    table is empty, and the timeline is then empty; a country it returns
    occurs in the filtered table, and its timeline is not empty and holds
    rows of that country only. *)
Theorem selectbox_country (dff : Table) (choice : nat) :
  (selectbox (countries dff) choice = None <-> dff = []) /\
  ts dff None = [] /\
  forall c, selectbox (countries dff) choice = Some c ->
    In c (col_location dff) /\ ts dff (Some c) <> [] /\
    forall r, In r (ts dff (Some c)) -> location r = c.
Proof.
  split; [|split; [apply ts_none|]].
  - rewrite <- countries_nil. unfold selectbox.
    destruct (countries dff !! choice) as [c|] eqn:Hc.
    + split; [discriminate|]. intros H. now rewrite H in Hc.
    + now destruct (countries dff).
  - intros c Hc.
    assert (Hin : In c (countries dff)).
    { unfold selectbox in Hc. destruct (countries dff !! choice) as [c'|] eqn:Hl.
      - injection Hc as ->. eapply list_elem_of_In, list_elem_of_lookup_2, Hl.
      - destruct (countries dff); [discriminate|]. injection Hc as ->. now left. }
    apply countries_elem in Hin. split; [exact Hin|]. split; [now apply ts_nonempty|].
    intros r Hr. rewrite ts_filter in Hr. apply filter_In in Hr as [_ Hr].
    now apply String.eqb_eq.
Qed.

(** X8: widening the date window never loses a country of the aggregated
    table and never moves a country's latest date back. *)
Theorem latest_window_widens (df : Table) (a b a' b' : Z) (L L' : Table)
    (Ha : a' <= a) (Hb : b <= b')
    (HL : latest (df_filtered df a b) L) (HL' : latest (df_filtered df a' b') L') :
  forall r, In r L -> exists r', In r' L' /\ location r' = location r /\ date r <= date r'.
Proof.
  intros r Hr. destruct (latest_row_in _ _ _ HL Hr) as [Hin _].
  assert (Hin' : In r (df_filtered df a' b')).
  { rewrite getitem_mask_window in *. apply filter_In in Hin as [Hin Hw].
    apply filter_In. split; [exact Hin|]. apply in_window_spec in Hw.
    apply in_window_spec. lia. }
  destruct (latest_has_location _ _ (location r) HL') as (r' & Hr' & Hl').
  { unfold col_location. now apply in_map. }
  exists r'. split; [exact Hr'|]. split; [exact Hl'|].
  destruct (latest_row_in _ _ _ HL' Hr') as [_ Hmax]. apply Hmax; [exact Hin'|now symmetry].
Qed.

(** A window that grows by one day. *)
Lemma latest_window_widens_witness :
  let df := [mkRow 5 "USA" 10 1; mkRow 6 "USA" 30 3; mkRow 7 "USA" 40 4] in
  5 <= 5 /\ 6 <= 7 /\
  exists r', In r' (latest_stable (df_filtered df 5 7)) /\
             location r' = "USA" /\ 6 <= date r'.
Proof.
  intros df. split; [lia|]. split; [lia|].
  apply (latest_window_widens df 5 6 5 7 (latest_stable (df_filtered df 5 6))
           (latest_stable (df_filtered df 5 7)) ltac:(lia) ltac:(lia)
           (latest_total _) (latest_total _) (mkRow 6 "USA" 30 3)).
  now left.
Defined.

Lemma sublist_In (l1 l2 : Table) (r : Row) : sublist l1 l2 -> In r l1 -> In r l2.
Proof.
  induction 1 as [|x l1 l2 _ IH|x l1 l2 _ IH]; intros Hr.
  - destruct Hr.
  - destruct Hr as [<-|Hr]; [now left|right; now apply IH].
  - right. now apply IH.
Qed.

Lemma sublist_locations (l1 l2 : Table) :
  sublist l1 l2 -> sublist (col_location l1) (col_location l2).
Proof. induction 1; simpl; now constructor. Qed.

Lemma df_head_sublist (n : Z) (df : Table) : sublist (df_head n df) df.
Proof. unfold df_head. destruct (n <? 0); apply sublist_take. Qed.

Lemma latest_length (dff L : Table) :
  latest dff L -> length L = nunique (col_location dff).
Proof.
  intros HL. rewrite <- (length_map location). fold (col_location L).
  rewrite (latest_locations dff L HL). unfold countries, nunique.
  apply Permutation_length, sort_keys_perm.
Qed.

(** X9: the ranked table shows a country at most once, and every row it
    shows is a row of the filtered table with the largest date of its
    country; when the slider value is at least the number of countries
    of the filtered table, every country is shown. *)
Theorem ranking_locations (dff : Table) (n : Z) (R : Table) (HR : ranking dff n R) :
  NoDup (col_location R) /\
  (forall r, In r R ->
     In r dff /\ forall x, In x dff -> location x = location r -> date x <= date r) /\
  (Z.of_nat (nunique (col_location dff)) <= n ->
   forall l, In l (col_location R) <-> In l (col_location dff)).
Proof.
  destruct HR as (L & HL & S & [Hp Hs] & ->).
  assert (HndS : NoDup (col_location S)).
  { unfold col_location. rewrite <- Hp. fold (col_location L).
    rewrite (latest_locations dff L HL). apply countries_NoDup. }
  split; [|split].
  - apply (sublist_NoDup (col_location (df_head n S)) (col_location S));
      [exact HndS | apply sublist_locations, df_head_sublist].
  - intros r Hr. apply (latest_row_in dff L r HL).
    eapply Permutation_in; [symmetry; exact Hp|].
    eapply sublist_In; [apply df_head_sublist|exact Hr].
  - intros Hn l.
    assert (Hall : df_head n S = S).
    { rewrite df_head_take by lia. apply take_ge.
      rewrite <- (Permutation_length Hp), (latest_length dff L HL). lia. }
    rewrite Hall, <- (countries_elem dff), <- (latest_locations dff L HL).
    unfold col_location. rewrite <- !list_elem_of_In. now rewrite Hp.
Qed.

(** Three countries and a slider value of 5. *)
Lemma ranking_locations_witness :
  let dff := [mkRow 3 "India" 50 1; mkRow 9 "UK" 70 2; mkRow 6 "USA" 60 3] in
  ranking dff 5 (top_countries_stable (latest_stable dff) 5) /\
  NoDup (col_location (top_countries_stable (latest_stable dff) 5)).
Proof.
  intros dff.
  assert (HR : ranking dff 5 (top_countries_stable (latest_stable dff) 5)).
  { exists (latest_stable dff). split; [apply latest_total|apply top_countries_total]. }
  split; [exact HR|].
  exact (proj1 (ranking_locations dff 5 _ HR)).
Defined.

(** ** Bubble chart and the generated counts *)

Lemma bubble_filter (L : Table) :
  bubble L = List.filter (fun r => (0 <? total_cases r) && (0 <? total_deaths r)) L.
Proof.
  unfold bubble, series_and, series_gt. rewrite <- getitem_mask_map. f_equal.
  induction L as [|r L IH]; simpl; [reflexivity|]. now rewrite IH.
Qed.

Lemma zip_columns_In (ds : list Z) (ls : list string) (cs ts : list Z) (r : Row) :
  In r (zip_columns ds ls cs ts) ->
  In (date r) ds /\ In (location r) ls /\ In (total_cases r) cs /\ In (total_deaths r) ts.
Proof.
  revert ls cs ts. induction ds as [|d ds IH]; intros [|l ls] [|c cs] [|t ts] Hr;
    try destruct Hr.
  - subst r. simpl. auto.
  - apply IH in H as (H1 & H2 & H3 & H4). simpl. auto.
Qed.

(** The rows [create_local_data] generates: counts inside the two ranges
    of draws, dates inside the 600 days. *)
Lemma synthesized_rows (g : RandomState) (r : Row) :
  In r (synthesized g) ->
  (100 <= total_cases r < 100000) /\ (1 <= total_deaths r < 2000) /\
  (day 0 <= date r <= day 599).
Proof.
  rewrite synthesized_draws. unfold table_of_draws. intros Hr.
  apply zip_columns_In in Hr as (Hd & _ & Hc & Ht).
  apply in_map_iff in Hd as (i & <- & Hi). apply in_seq in Hi.
  apply in_map_iff in Hc as (j & <- & _). apply in_map_iff in Ht as (k & <- & _).
  pose proof (Z.mod_pos_bound (entropy g (cursor g + j)%nat) (100000 - 100)).
  pose proof (Z.mod_pos_bound (entropy g (cursor g + 600 + k)%nat) (2000 - 1)).
  unfold day. lia.
Qed.

(** X10: the table a run of [create_local_data] has pickled when it
    returns has [total_cases] in [[100, 100000)] and [total_deaths] in
    [[1, 2000)] in every row, and dates within the 600 days from
    2020-01-01, all of them dates a [datetime64[ns]] column can hold. *)
Theorem create_local_data_ranges (w w' : World)
    (Hrun : create_local_data w = (Ok tt, w')) :
  exists df,
    fs w' !! PICKLE_FILE = Some (Pickled df) /\
    forall r, In r df ->
      (100 <= total_cases r < 100000) /\ (1 <= total_deaths r < 2000) /\
      (day 0 <= date r <= day 599) /\ valid_date (date r).
Proof.
  exists (synthesized (np_random w)). rewrite create_local_data_ok in Hrun.
  injection Hrun as <-. simpl fs.
  split; [apply lookup_insert_eq|].
  intros r Hr. apply synthesized_rows in Hr as (Hc & Ht & Hd).
  repeat (split; [assumption|]).
  unfold valid_date, TIMESTAMP_MIN_DAY, TIMESTAMP_MAX_DAY, day in *. lia.
Qed.

(** A run in an empty directory. *)
Lemma create_local_data_ranges_witness :
  let w := mkWorld ∅ (mkRandomState (fun i => Z.of_nat i * 7919) 0) None in
  exists df,
    fs (snd (create_local_data w)) !! PICKLE_FILE = Some (Pickled df) /\
    forall r, In r df ->
      (100 <= total_cases r < 100000) /\ (1 <= total_deaths r < 2000) /\
      (day 0 <= date r <= day 599) /\ valid_date (date r).
Proof.
  intros w.
  apply (create_local_data_ranges w (snd (create_local_data w))).
  now rewrite create_local_data_ok.
Defined.

(** X11: on a first run, for every date window, the bubble chart shows
    every row of the aggregated table: no generated count is zero, so the
    positivity filter of line 91 drops nothing. *)
Theorem bubble_keeps_generated (w : World) (df : Table) (w' : World) (a b : Z) (L : Table)
    (Hfile : fs w !! PICKLE_FILE = None) (Hcache : cache w = None)
    (Hload : load_data w = (Ok df, w'))
    (HL : latest (df_filtered df a b) L) :
  bubble L = L.
Proof.
  unfold load_data in Hload. rewrite Hcache, (load_data_body_no_file w Hfile) in Hload.
  injection Hload as <- _.
  rewrite bubble_filter. apply filter_all. intros r Hr.
  apply (latest_row_in _ _ _ HL) in Hr as [Hr _].
  rewrite getitem_mask_window in Hr. apply filter_In in Hr as [Hr _].
  apply synthesized_rows in Hr as (Hc & Ht & _).
  apply andb_true_iff. split; apply Z.ltb_lt; lia.
Qed.

(** A first run in an empty directory, and the first ten days. *)
Lemma bubble_keeps_generated_witness :
  let w := mkWorld ∅ (mkRandomState (fun i => Z.of_nat i * 7919) 0) None in
  let df := synthesized (np_random w) in
  fs w !! PICKLE_FILE = None /\ cache w = None /\
  bubble (latest_stable (df_filtered df (day 0) (day 9)))
  = latest_stable (df_filtered df (day 0) (day 9)).
Proof.
  intros w df.
  assert (Hfile : fs w !! PICKLE_FILE = None) by reflexivity.
  assert (Hcache : cache w = None) by reflexivity.
  split; [exact Hfile|]. split; [exact Hcache|].
  eapply (bubble_keeps_generated w df _ (day 0) (day 9) _ Hfile Hcache).
  - unfold load_data. rewrite Hcache, (load_data_body_no_file w Hfile). reflexivity.
  - apply latest_total.
Defined.

(** ** Dataset provider: files, errors, restarts *)

(** X12: the table a call of [load_data] returned is the content of the
    pickle file afterwards, and a later process (empty memo, any state of
    the random source) gets the same table from [load_data], without
    drawing random numbers and without writing the file. *)
Theorem load_data_persists (w : World) (df : Table) (w1 : World)
    (Hcache : cache w = None) (Hload : load_data w = (Ok df, w1)) :
  fs w1 !! PICKLE_FILE = Some (Pickled df) /\
  forall g, load_data (mkWorld (fs w1) g None) = (Ok df, mkWorld (fs w1) g (Some df)).
Proof.
  assert (Hfile : fs w1 !! PICKLE_FILE = Some (Pickled df)).
  { unfold load_data in Hload. rewrite Hcache in Hload.
    destruct (fs w !! PICKLE_FILE) as [f|] eqn:Hf.
    - rewrite (load_data_body_file w f Hf) in Hload.
      destruct f as [df0|]; [|discriminate]. now injection Hload as <- <-.
    - rewrite (load_data_body_no_file w Hf) in Hload.
      injection Hload as <- <-. apply lookup_insert_eq. }
  split; [exact Hfile|]. intros g. unfold load_data. simpl cache.
  now rewrite (load_data_body_file (mkWorld (fs w1) g None) (Pickled df) Hfile).
Qed.

(** A directory that holds a pickled table of one row. *)
Lemma load_data_persists_witness :
  let df := [mkRow 18262 "India" 500 3] in
  let w := mkWorld {[ PICKLE_FILE := Pickled df ]} (mkRandomState (fun _ => 0) 0) None in
  cache w = None /\ load_data w = (Ok df, mkWorld (fs w) (np_random w) (Some df)) /\
  load_data (mkWorld (fs w) (mkRandomState (fun _ => 1) 5) None)
  = (Ok df, mkWorld (fs w) (mkRandomState (fun _ => 1) 5) (Some df)).
Proof.
  intros df w.
  assert (Hcache : cache w = None) by reflexivity.
  assert (Hload : load_data w = (Ok df, mkWorld (fs w) (np_random w) (Some df))).
  { unfold load_data. rewrite Hcache.
    now rewrite (load_data_body_file w (Pickled df) (lookup_singleton_eq _ _)). }
  split; [exact Hcache|]. split; [exact Hload|].
  exact (proj2 (load_data_persists w df _ Hcache Hload) (mkRandomState (fun _ => 1) 5)).
Defined.

(** X13: with nothing memoized and a pickle file that does not unpickle,
    [load_data] raises the exception of [read_pickle]; nothing is
    regenerated, written or memoized, so the next call raises it again.
    In the other direction, a call that raises had no memo to answer
    from and no pickle file that unpickles. *)
Theorem load_data_raises (w : World) :
  (forall e, cache w = None -> fs w !! PICKLE_FILE = Some (Unreadable e) ->
     load_data w = (Raise e, w) /\
     fst (load_data (snd (load_data w))) = Raise e) /\
  (forall e w', load_data w = (Raise e, w') ->
     cache w = None /\ forall df, fs w !! PICKLE_FILE <> Some (Pickled df)).
Proof.
  split.
  - intros e Hc Hf.
    assert (H1 : load_data w = (Raise e, w)).
    { unfold load_data. now rewrite Hc, (load_data_body_file w (Unreadable e) Hf). }
    split; [exact H1|]. now rewrite H1; simpl; rewrite H1.
  - intros e w' Hr. unfold load_data in Hr. destruct (cache w) as [df0|] eqn:Hc.
    + discriminate.
    + split; [reflexivity|]. intros df Hf.
      rewrite (load_data_body_file w (Pickled df) Hf) in Hr. discriminate.
Qed.

(** An empty [covid.pkl]: unpickling meets the end of the file. *)
Lemma load_data_raises_witness :
  let w := mkWorld {[ PICKLE_FILE := Unreadable EOFError ]}
                   (mkRandomState (fun _ => 0) 0) None in
  load_data w = (Raise EOFError, w) /\
  fst (load_data (snd (load_data w))) = Raise EOFError.
Proof.
  intros w.
  exact (proj1 (load_data_raises w) EOFError eq_refl (lookup_singleton_eq _ _)).
Defined.

(** X14: [load_data] touches no file but the pickle file; a pickle file
    that exists is never rewritten and then no random number is drawn;
    only a call with no memo and no pickle file draws, exactly 1200
    numbers. *)
Theorem load_data_effects (w : World) :
  (forall p, p <> PICKLE_FILE -> fs (snd (load_data w)) !! p = fs w !! p) /\
  (is_Some (cache w) \/ is_Some (fs w !! PICKLE_FILE) ->
   fs (snd (load_data w)) = fs w /\ np_random (snd (load_data w)) = np_random w) /\
  (cache w = None -> fs w !! PICKLE_FILE = None ->
   cursor (np_random (snd (load_data w))) = (cursor (np_random w) + 1200)%nat /\
   entropy (np_random (snd (load_data w))) = entropy (np_random w)).
Proof.
  unfold load_data. destruct (cache w) as [df0|] eqn:Hc.
  - simpl. split; [reflexivity|]. split; [auto|discriminate].
  - destruct (fs w !! PICKLE_FILE) as [f|] eqn:Hf.
    + rewrite (load_data_body_file w f Hf).
      destruct f; simpl; (split; [reflexivity|]); (split; [auto|discriminate]).
    + rewrite (load_data_body_no_file w Hf). simpl. split; [|split].
      * intros p Hp. now apply lookup_insert_ne.
      * intros [[x Hx]|[x Hx]]; discriminate.
      * auto.
Qed.

(** ** CSV export: what the writer quotes, and what it keeps apart *)

(** X15: the writer never quotes a date cell or a number cell; a row
    whose location holds no separator, quote or line break is written as
    its four cells joined by commas and ended by a line feed. *)
Theorem csv_plain_cells (quote_cr : bool) :
  (forall z, csv_field quote_cr (format_date z) = format_date z) /\
  (forall n, csv_field quote_cr (str_of_int n) = str_of_int n) /\
  (forall r, needs_quoting quote_cr (location r) = false ->
     csv_record quote_cr (row_cells r)
     = format_date (date r) +:+ String COMMA (location r +:+ String COMMA
         (str_of_int (total_cases r) +:+ String COMMA
            (str_of_int (total_deaths r) +:+ String LF EmptyString)))).
Proof.
  assert (Hd : forall z, csv_field quote_cr (format_date z) = format_date z).
  { intros z. unfold csv_field. now rewrite format_date_plain. }
  assert (Hn : forall n, csv_field quote_cr (str_of_int n) = str_of_int n).
  { intros n. unfold csv_field. now rewrite str_of_int_plain. }
  split; [exact Hd|]. split; [exact Hn|].
  intros r Hr. unfold csv_record, row_cells. cbn [map csv_join].
  rewrite Hd, !Hn. unfold csv_field at 1. now rewrite Hr.
Qed.

(** A row of the generated kind. *)
Lemma csv_plain_cells_witness :
  needs_quoting false "India" = false /\
  csv_record false (row_cells (mkRow (day 0) "India" 500 3))
  = "2020-01-01,India,500,3" +:+ String LF EmptyString.
Proof.
  split; [reflexivity|].
  exact (proj2 (proj2 (csv_plain_cells false)) (mkRow (day 0) "India" 500 3) eq_refl).
Defined.

Lemma list_byte_of_string_inj (s1 s2 : string) :
  list_byte_of_string s1 = list_byte_of_string s2 -> s1 = s2.
Proof.
  intros H. rewrite <- (string_of_list_byte_of_string s1), H.
  apply string_of_list_byte_of_string.
Qed.

(** X16: the export loses nothing: two tables (with dates a
    [datetime64[ns]] column can hold) that give the same payload are the
    same table, also when the two payloads come from writers that differ
    in their treatment of carriage returns. *)
Theorem to_csv_bytes_injective (q1 q2 : bool) (df1 df2 : Table)
    (H1 : List.Forall (fun r => valid_date (date r)) df1)
    (H2 : List.Forall (fun r => valid_date (date r)) df2)
    (Heq : to_csv_bytes q1 df1 = to_csv_bytes q2 df2) :
  df1 = df2.
Proof.
  apply list_byte_of_string_inj in Heq.
  pose proof (unjoin_to_csv q1 df1) as R1. pose proof (unjoin_to_csv q2 df2) as R2.
  rewrite Heq, R2 in R1. injection R1 as Hcells.
  pose proof (parse_rows_cells df1 H1) as P1. pose proof (parse_rows_cells df2 H2) as P2.
  rewrite <- Hcells, P2 in P1. now injection P1.
Qed.

(** One table, written by both kinds of writer. *)
Lemma to_csv_bytes_injective_witness :
  let df := [mkRow 18262 "India" 500 3; mkRow 18263 "Korea, South" 0 0] in
  List.Forall (fun r => valid_date (date r)) df /\
  to_csv_bytes false df = to_csv_bytes true df /\ df = df.
Proof.
  intros df.
  assert (Hdates : List.Forall (fun r => valid_date (date r)) df).
  { repeat constructor; simpl; unfold TIMESTAMP_MIN_DAY, TIMESTAMP_MAX_DAY; lia. }
  assert (Heq : to_csv_bytes false df = to_csv_bytes true df) by reflexivity.
  split; [exact Hdates|]. split; [exact Heq|].
  exact (to_csv_bytes_injective false true df df Hdates Hdates Heq).
Defined.

(** * The date sort of a run *)

(** ** Insertion sort *)

Section Insertion.
Context {A : Type} (key : A -> Z).




End Insertion.

(** ** The quicksort sorts *)

Section Arrays.
Context {A : Type} (key : A -> Z).

















End Arrays.

Section Partition.
Context {A : Type} (key : A -> Z).










End Partition.

Section Heapsort.
Context {A : Type} (key : A -> Z).












End Heapsort.

Section Loop.
Context {A : Type} (key : A -> Z).












End Loop.

(** ** Insertion sort is the stable sort *)

Section StableInsertion.
Variable key : Row -> Z.










End StableInsertion.

(** ** From the sorted positions to the sorted rows *)









(** ** The date sort of a run is an outcome of [sort_values] *)





(** ** The kept row under a stable date sort *)








(** ** Input order and the aggregated table *)







